(** * The visual Markdown editor (VisualEditor/index.js)

    A shallow embedding of the editor's URL helper, its plugin serializer,
    its schema rule and its key handlers, with the properties the
    specification states about them. *)

From Stdlib Require Import String Ascii List Bool Arith ZArith Lia.
From stdpp Require Import base option list gmap strings.


(** ** Regular expressions

    The two literals of [processUrl] use characters, one negated class,
    [?], [+], alternation and sequencing, anchored at the start of the
    input.  [String.prototype.match] is only tested for truthiness, so a
    literal is embedded as a value of [regex] and the engine as the search
    for a matching prefix. *)

Inductive regex : Type :=
| Void                       (* no string; only arises while matching *)
| Eps                        (* the empty string *)
| Chr (c : ascii)            (* a literal character *)
| NotChr (c : ascii)         (* the class [^c] *)
| Seq (r1 r2 : regex)        (* r1 r2 *)
| Alt (r1 r2 : regex)        (* r1|r2 *)
| Opt (r : regex)            (* r? *)
| Plus (r : regex).          (* r+ *)

Fixpoint lit (s : string) : regex :=
  match s with
  | EmptyString => Eps
  | String c s' => Seq (Chr c) (lit s')
  end.

Fixpoint nullable (r : regex) : bool :=
  match r with
  | Void => false
  | Eps => true
  | Chr _ => false
  | NotChr _ => false
  | Seq r1 r2 => nullable r1 && nullable r2
  | Alt r1 r2 => nullable r1 || nullable r2
  | Opt _ => true
  | Plus r1 => nullable r1
  end.

Fixpoint deriv (a : ascii) (r : regex) : regex :=
  match r with
  | Void => Void
  | Eps => Void
  | Chr c => if Ascii.eqb a c then Eps else Void
  | NotChr c => if Ascii.eqb a c then Void else Eps
  | Seq r1 r2 =>
      if nullable r1
      then Alt (Seq (deriv a r1) r2) (deriv a r2)
      else Seq (deriv a r1) r2
  | Alt r1 r2 => Alt (deriv a r1) (deriv a r2)
  | Opt r1 => deriv a r1
  | Plus r1 => Seq (deriv a r1) (Opt (Plus r1))
  end.

(** [test_anchored r s]: the truthiness of [s.match(/^r/)]. *)
Fixpoint test_anchored (r : regex) (s : string) : bool :=
  nullable r ||
  match s with
  | EmptyString => false
  | String a s' => test_anchored (deriv a r) s'
  end.

(** The language of a regular expression, for reasoning about the engine. *)
Inductive matches : regex -> string -> Prop :=
| MEps : matches Eps ""
| MChr c : matches (Chr c) (String c "")
| MNotChr c a : a <> c -> matches (NotChr c) (String a "")
| MSeq r1 r2 s1 s2 :
    matches r1 s1 -> matches r2 s2 -> matches (Seq r1 r2) (s1 +:+ s2)
| MAltL r1 r2 s : matches r1 s -> matches (Alt r1 r2) s
| MAltR r1 r2 s : matches r2 s -> matches (Alt r1 r2) s
| MOptNone r : matches (Opt r) ""
| MOptSome r s : matches r s -> matches (Opt r) s
| MPlusOne r s : matches r s -> matches (Plus r) s
| MPlusMore r s1 s2 :
    matches r s1 -> matches (Plus r) s2 -> matches (Plus r) (s1 +:+ s2).

(** ** processUrl *)

(** /^(https?:\/\/|mailto:|\/)/ *)
Definition absolute_re : regex :=
  Alt (Seq (lit "http") (Seq (Opt (Chr "s")) (lit "://")))
      (Alt (lit "mailto:") (Chr "/")).

(** /^[^/]+\.[^/]+/ *)
Definition domain_re : regex :=
  Seq (Plus (NotChr "/")) (Seq (Chr ".") (Plus (NotChr "/"))).

Definition processUrl (url : string) : string :=
  if test_anchored absolute_re url then url
  else if test_anchored domain_re url then "https://" +:+ url
  else "/" +:+ url.

(** The same function in the words of its description. *)
Fixpoint startsWith (p s : string) : bool :=
  match p, s with
  | EmptyString, _ => true
  | String a p', String b s' => Ascii.eqb a b && startsWith p' s'
  | String _ _, EmptyString => false
  end.

Definition notSlash (a : ascii) : bool := negb (Ascii.eqb a "/").

(** After at least one non-slash character: a dot followed by a non-slash
    character, possibly after further non-slash characters. *)
Fixpoint dotThenNonSlash (s : string) : bool :=
  match s with
  | String a ((String b _) as s') =>
      (Ascii.eqb a "." && notSlash b) || (notSlash a && dotThenNonSlash s')
  | _ => false
  end.

Definition bareDomain (s : string) : bool :=
  match s with
  | String a s' => notSlash a && dotThenNonSlash s'
  | EmptyString => false
  end.

(** One or more non-slash characters, a dot, a non-slash character. *)
Definition bareDomainShape (s : string) : Prop :=
  exists (p : string) (b : ascii) (rest : string),
    s = p +:+ String "." (String b rest) /\
    p <> "" /\ (forall a, In a (list_ascii_of_string p) -> a <> "/"%char) /\
    b <> "/"%char.

Definition processUrl_described (url : string) : string :=
  if startsWith "http://" url || startsWith "https://" url
     || startsWith "mailto:" url || startsWith "/" url
  then url
  else if bareDomain url then "https://" +:+ url
  else "/" +:+ url.

(** ** createSerializer *)

Definition newline : ascii := "010"%char.

(** An editor component of the registry: [plugin.get('id')],
    [plugin.get('label')], the names of [plugin.get('fields')] and
    [plugin.get('toBlock')]. *)
Record Plugin : Type := {
  plugin_id : string;
  plugin_label : string;
  plugin_fields : list string;
  plugin_toBlock : gmap string string -> string;
}.

(** A node handed to a serializer function: its kind and [node.attrs]. *)
Record SerializedNode : Type := {
  node_kind : string;
  node_attrs : gmap string string;
}.

Section Serializer.
(** The serializer state and its [write] method belong to the Markdown
    serializer the table is built on. *)
Variable SerializerState : Type.
Variable write : string -> SerializerState -> SerializerState.

Definition NodeSerializer : Type :=
  SerializerState -> SerializedNode -> SerializerState.

(** (state, node) => state.write(`${ toBlock.call(plugin, node.attrs) }\n\n`) *)
Definition pluginSerializer (plugin : Plugin) : NodeSerializer :=
  fun state node =>
    let toBlock := plugin_toBlock plugin in
    write (toBlock (node_attrs node) +:+ String newline (String newline "")) state.

(** [serializer.nodes] is the table of the default serializer, reached
    through the prototype: every assignment of the loop lands in that one
    table, which is the argument [nodes] here and the result.  The
    function does not use its [schema] argument. *)
Definition createSerializer
    (nodes : gmap string NodeSerializer) (plugins : list Plugin)
  : gmap string NodeSerializer :=
  foldl (fun nodes plugin =>
           <[ "plugin_" +:+ plugin_id plugin := pluginSerializer plugin ]> nodes)
        nodes plugins.
End Serializer.

Arguments pluginSerializer {SerializerState} write plugin _ _.
Arguments createSerializer {SerializerState} write nodes plugins.

(** ** The tag tables *)

Definition BLOCK_TAGS : gmap string string :=
  list_to_map
    [ ("p", "paragraph"); ("li", "list-item"); ("ul", "bulleted-list");
      ("ol", "numbered-list"); ("blockquote", "quote"); ("pre", "code");
      ("h1", "heading-one"); ("h2", "heading-two"); ("h3", "heading-three");
      ("h4", "heading-four"); ("h5", "heading-five"); ("h6", "heading-six") ].

Definition MARK_TAGS : gmap string string :=
  list_to_map
    [ ("strong", "bold"); ("em", "italic"); ("u", "underline");
      ("s", "strikethrough"); ("del", "strikethrough"); ("code", "code") ].

Definition DEFAULT_NODE : string := "paragraph".

(** ** The document model

    Slate's immutable document tree, as the editor's code reads it: a
    document holds nodes; a node is a block, an inline or a text; blocks
    and inlines have a key, a type, an [isVoid] flag, data and child
    nodes; a text has a key and characters, each with its set of marks.
    Keys are the decimal strings of a counter, here the counter's value. *)

Set Warnings "-register-all".

Definition Key : Type := nat.

Record Character : Type := {
  char_text : ascii;
  char_marks : gset string;
}.

Global Instance Character_eq_dec : EqDecision Character.
Proof. solve_decision. Defined.

Inductive Node : Type :=
| Block (key : Key) (type : string) (isVoid : bool)
        (data : gmap string string) (nodes : list Node)
| Inline (key : Key) (type : string) (isVoid : bool)
         (data : gmap string string) (nodes : list Node)
| Text (key : Key) (characters : list Character).

Fixpoint Node_eq_dec (x y : Node) {struct x} : {x = y} + {x <> y}.
Proof.
  pose proof (@list_eq_dec Node Node_eq_dec).
  decide equality; try solve [apply (decide_rel (=))].
Defined.

Global Instance Node_eq : EqDecision Node := Node_eq_dec.

Inductive Kind : Type := kind_document | kind_block | kind_inline | kind_text.

Definition Kind_eqb (a b : Kind) : bool :=
  match a, b with
  | kind_document, kind_document | kind_block, kind_block
  | kind_inline, kind_inline | kind_text, kind_text => true
  | _, _ => false
  end.

Definition key (n : Node) : Key :=
  match n with Block k _ _ _ _ | Inline k _ _ _ _ | Text k _ => k end.

Definition kind (n : Node) : Kind :=
  match n with
  | Block _ _ _ _ _ => kind_block
  | Inline _ _ _ _ _ => kind_inline
  | Text _ _ => kind_text
  end.

(** [node.type]; a text has none. *)
Definition type (n : Node) : string :=
  match n with Block _ t _ _ _ | Inline _ t _ _ _ => t | Text _ _ => "" end.

Definition isVoid (n : Node) : bool :=
  match n with Block _ _ v _ _ | Inline _ _ v _ _ => v | Text _ _ => false end.

Definition nodes (n : Node) : list Node :=
  match n with Block _ _ _ _ ns | Inline _ _ _ _ ns => ns | Text _ _ => [] end.

Definition isBlock (n : Node) : bool :=
  match n with Block _ _ _ _ _ => true | _ => false end.

Record Document : Type := {
  doc_key : Key;
  doc_nodes : list Node;
}.

(** Slate's [getBlocks]: the bottom-most blocks, those without a block
    child, in document order. *)
Fixpoint getBlocksAsArray (n : Node) : list Node :=
  match n with
  | Block _ _ _ _ ns =>
      if forallb (fun c => negb (isBlock c)) ns then [n]
      else List.flat_map getBlocksAsArray ns
  | _ => []
  end.

Definition getBlocks (doc : Document) : list Node :=
  List.flat_map getBlocksAsArray (doc_nodes doc).

(** The block children of a document. *)
Definition blockChildren (doc : Document) : list Node :=
  List.filter isBlock (doc_nodes doc).

(** The node itself when it is a text, else its first text in document
    order ([getFirstText]). *)
Fixpoint firstText (n : Node) : option Node :=
  match n with
  | Text _ _ => Some n
  | Block _ _ _ _ ns | Inline _ _ _ _ ns =>
      (fix first (l : list Node) : option Node :=
         match l with
         | [] => None
         | c :: l' =>
             match firstText c with Some t => Some t | None => first l' end
         end) ns
  end.

Definition getFirstText (n : Node) : option Node :=
  match n with Text _ _ => None | _ => firstText n end.

(** [document.getFirstText()] *)
Fixpoint firstTextIn (l : list Node) : option Node :=
  match l with
  | [] => None
  | c :: l' => match firstText c with Some t => Some t | None => firstTextIn l' end
  end.

Definition documentFirstText (doc : Document) : option Node :=
  firstTextIn (doc_nodes doc).

(** [node.getTexts()]: the texts of a node, in document order. *)
Fixpoint getTexts (n : Node) : list Node :=
  match n with
  | Text _ _ => [n]
  | Block _ _ _ _ ns | Inline _ _ _ _ ns => List.flat_map getTexts ns
  end.

Definition documentTexts (doc : Document) : list Node :=
  List.flat_map getTexts (doc_nodes doc).

(** The characters of a node: those of its texts, in document order
    ([node.text], character by character). *)
Fixpoint nodeText (n : Node) : list Character :=
  match n with
  | Text _ characters => characters
  | Block _ _ _ _ ns | Inline _ _ _ _ ns => List.flat_map nodeText ns
  end.

(** The search behind [getClosestBlock]: [Some b] when the key [k] is found
    at [n] or below, [b] being the nearest block strictly above it, if any. *)
Fixpoint closestBlockFrom (k : Key) (above : option Node) (n : Node)
  : option (option Node) :=
  if Nat.eqb (key n) k then Some above
  else
    match n with
    | Block _ _ _ _ ns =>
        (fix search (l : list Node) : option (option Node) :=
           match l with
           | [] => None
           | c :: l' =>
               match closestBlockFrom k (Some n) c with
               | Some r => Some r
               | None => search l'
               end
           end) ns
    | Inline _ _ _ _ ns =>
        (fix search (l : list Node) : option (option Node) :=
           match l with
           | [] => None
           | c :: l' =>
               match closestBlockFrom k above c with
               | Some r => Some r
               | None => search l'
               end
           end) ns
    | Text _ _ => None
    end.

Fixpoint closestBlockIn (k : Key) (l : list Node) : option (option Node) :=
  match l with
  | [] => None
  | c :: l' =>
      match closestBlockFrom k None c with
      | Some r => Some r
      | None => closestBlockIn k l'
      end
  end.

Definition getClosestBlock (doc : Document) (k : Key) : option Node :=
  match closestBlockIn k (doc_nodes doc) with
  | Some r => r
  | None => None
  end.

(** [list.indexOf(x)]: the first index holding a value equal to [x], or -1. *)
Fixpoint indexOfFrom (i : Z) (x : Node) (l : list Node) : Z :=
  match l with
  | [] => (-1)%Z
  | y :: l' => if decide (y = x) then i else indexOfFrom (i + 1)%Z x l'
  end.

Definition indexOf (l : list Node) (x : option Node) : Z :=
  match x with
  | Some n => indexOfFrom 0%Z n l
  | None => (-1)%Z
  end.

(** [list.splice(index, 0, x)]: a negative index counts from the end, and
    an index beyond either end is clamped. *)
Definition splice (index : Z) (x : Node) (l : list Node) : list Node :=
  let size := Z.of_nat (length l) in
  let i := if (index <? 0)%Z then Z.max (size + index) 0
           else Z.min index size in
  take (Z.to_nat i) l ++ x :: drop (Z.to_nat i) l.

Record Selection : Type := {
  anchorKey : option Key;
  anchorOffset : nat;
  focusKey : option Key;
  focusOffset : nat;
  isBackward : bool;
  isFocused : bool;
}.

Definition isUnset (sel : Selection) : bool :=
  match anchorKey sel, focusKey sel with
  | Some _, Some _ => false
  | _, _ => true
  end.

Definition startKey (sel : Selection) : option Key :=
  if isBackward sel then focusKey sel else anchorKey sel.

(** [node.hasDescendant(key)] and [selection.hasFocusIn(node)]: the focus
    point of the selection lies in the node. *)
Fixpoint hasDescendant (k : Key) (n : Node) : bool :=
  match n with
  | Block _ _ _ _ ns | Inline _ _ _ _ ns =>
      existsb (fun c => Nat.eqb (key c) k || hasDescendant k c) ns
  | Text _ _ => false
  end.

Definition hasFocusIn (sel : Selection) (n : Node) : bool :=
  match focusKey sel with
  | Some k =>
      match n with
      | Text k' _ => Nat.eqb k' k
      | _ => hasDescendant k n
      end
  | None => false
  end.

(** An editor state: the document, the selection, and the counter new keys
    are drawn from. *)
Record State : Type := {
  document : Document;
  selection : Selection;
  keygen : Key;
}.

Definition blockAt (st : State) (k : option Key) : option Node :=
  if isUnset (selection st) then None
  else match k with
       | Some k => getClosestBlock (document st) k
       | None => None
       end.

Definition startBlock (st : State) : option Node :=
  blockAt st (startKey (selection st)).

Definition anchorBlock (st : State) : option Node :=
  blockAt st (anchorKey (selection st)).

Definition focusBlock (st : State) : option Node :=
  blockAt st (focusKey (selection st)).

(** ** Transforms

    [state.transform()] starts a transform on a state; every method call
    performs one operation on the transform's current state and records
    it; [apply(options)] hands the resulting state back. *)

Inductive Op : Type :=
| insertNodeByKey (k : Key) (index : Z) (n : Node)
| collapseToStartOf (n : Node)
| focus
| insertBlock (blockType : string)
| insertText (s : string)
| deleteBackward (n : nat)
| setBlock (blockType : string)
| wrapBlock (blockType : string)
| unwrapBlock (blockType : string)
| toggleMark (markType : string)
| insertFragment (fragment : Document)
| undo
| redo.

Record Transform : Type := {
  state : State;
  operations : list Op;
}.

Record ApplyOptions : Type := {
  save : option bool;
}.

Record Applied : Type := {
  next : State;
  applied : list Op;
  applyOptions : ApplyOptions;
}.

Fixpoint insertInNode (k : Key) (index : Z) (new : Node) (n : Node) : Node :=
  match n with
  | Block k' t v d ns =>
      if Nat.eqb k' k then Block k' t v d (splice index new ns)
      else Block k' t v d (List.map (insertInNode k index new) ns)
  | Inline k' t v d ns =>
      if Nat.eqb k' k then Inline k' t v d (splice index new ns)
      else Inline k' t v d (List.map (insertInNode k index new) ns)
  | Text _ _ => n
  end.

Definition insertInDocument (k : Key) (index : Z) (new : Node) (doc : Document)
  : Document :=
  if Nat.eqb (doc_key doc) k
  then {| doc_key := doc_key doc; doc_nodes := splice index new (doc_nodes doc) |}
  else {| doc_key := doc_key doc;
          doc_nodes := List.map (insertInNode k index new) (doc_nodes doc) |}.

Definition collapseSelectionToStartOf (n : Node) (sel : Selection) : Selection :=
  match firstText n with
  | Some t =>
      {| anchorKey := Some (key t); anchorOffset := 0;
         focusKey := Some (key t); focusOffset := 0;
         isBackward := false; isFocused := isFocused sel |}
  | None => sel
  end.

Definition focusSelection (sel : Selection) : Selection :=
  {| anchorKey := anchorKey sel; anchorOffset := anchorOffset sel;
     focusKey := focusKey sel; focusOffset := focusOffset sel;
     isBackward := isBackward sel; isFocused := true |}.

(** Modelled from the spec: the normalization of a document is Slate's;
    the document of the data model has blocks for children ("a document
    always has ≥1 block child").  Whenever a document is normalized, its
    children that are not blocks are removed. *)
Definition onlyBlocks (st : State) : State :=
  {| document := {| doc_key := doc_key (document st);
                    doc_nodes := List.filter isBlock (doc_nodes (document st)) |};
     selection := selection st;
     keygen := keygen st |}.

(** [document.hasDescendant(key)] for a key of the selection. *)
Definition hasNode (doc : Document) (k : option Key) : bool :=
  match k with
  | Some k => existsb (fun c => Nat.eqb (key c) k || hasDescendant k c) (doc_nodes doc)
  | None => false
  end.

(** Modelled from the spec: the normalization of the selection is
    Slate's; "insert one empty paragraph block at position 0 and move the
    cursor there".  At the end of a normalization a selection that is
    unset, or whose anchor or focus key is the key of no node of the
    document, is put at the start of the document's first text; a
    document without nodes is left as it is. *)
Definition normalizeSelection (st : State) : State :=
  let doc := document st in
  let sel := selection st in
  if isUnset sel || negb (hasNode doc (anchorKey sel))
     || negb (hasNode doc (focusKey sel))
  then
    match documentFirstText doc with
    | Some firstText =>
        {| document := doc;
           selection := collapseSelectionToStartOf firstText sel;
           keygen := keygen st |}
    | None => st
    end
  else st.

Section Transforms.
(** What the library does for the text-level and history operations,
    whose effect the editor's code neither defines nor inspects. *)
Variable slate : Op -> State -> State.

(** Modelled from the spec: the operations are methods of Slate's
    transform, which is not part of this file; "insertNodeByKey(parentKey,
    index, node) - structural insert at an explicit tree address",
    "collapseToStartOf(node) / focus() - selection-only mutations".
    [insertNodeByKey] splices the node into the children of the node with
    that key and leaves the selection alone, [collapseToStartOf] puts both
    ends of the selection at the start of the node's first text, [focus]
    sets the focused flag; neither touches the document.  The other
    operations are left to [slate]. *)
Definition perform (op : Op) (st : State) : State :=
  match op with
  | insertNodeByKey k index n =>
      {| document := insertInDocument k index n (document st);
         selection := selection st; keygen := keygen st |}
  | collapseToStartOf n =>
      {| document := document st;
         selection := collapseSelectionToStartOf n (selection st);
         keygen := keygen st |}
  | focus =>
      {| document := document st;
         selection := focusSelection (selection st);
         keygen := keygen st |}
  | _ => slate op st
  end.

(** state.transform() *)
Definition transform (st : State) : Transform :=
  {| state := st; operations := [] |}.

(** transform.op(...) *)
Definition chain (t : Transform) (op : Op) : Transform :=
  {| state := perform op (state t); operations := operations t ++ [op] |}.

(** transform.apply(options) *)
Definition apply (opts : ApplyOptions) (t : Transform) : Applied :=
  {| next := state t; applied := operations t; applyOptions := opts |}.
End Transforms.

(** apply() and apply({ save: false }) *)
Definition defaults : ApplyOptions := {| save := None |}.
Definition dontSave : ApplyOptions := {| save := Some false |}.

(** SlateText.createFromString('') inside SlateBlock.create({ type:
    'paragraph', nodes: [...] }): the text is created first, then the
    block, each drawing a key. *)
Definition createParagraph (st : State) : Node * State :=
  let g := keygen st in
  (Block (S g) "paragraph" false ∅ [Text g []],
   {| document := document st; selection := selection st; keygen := S (S g) |}).

(** ** Key handlers *)

(** The event [e] and Slate's description [data] of the key. *)
Record KeyEvent : Type := {
  shiftKey : bool;
}.

Record KeyData : Type := {
  data_key : string;
  isMod : bool;
  isShift : bool;
}.

(** What a handler does: it throws, or it returns, with or without a new
    state, having called [e.preventDefault()] or not. *)
Inductive Outcome : Type :=
| Throws
| Return (defaultPrevented : bool) (result : option Applied).

Record SoftBreakOptions : Type := {
  sb_shift : bool;
  sb_onlyIn : option (list string);
  sb_ignoreIn : option (list string);
  sb_closeAfter : option nat;
  sb_unwrapBlocks : option (list string);
  sb_defaultBlock : option string;
}.

Record BackspaceCloseBlockOptions : Type := {
  bs_defaultBlock : option string;
  bs_ignoreIn : option (list string);
  bs_onlyIn : option (list string);
}.

(** array.includes(x) *)
Definition includes (l : list string) (x : string) : bool :=
  existsb (String.eqb x) l.

(** list.takeLast(n) *)
Definition takeLast {A : Type} (n : nat) (l : list A) : list A :=
  drop (length l - n) l.

Definition isNewline (c : Character) : bool := Ascii.eqb (char_text c) newline.

(** The marks of the key map in [handleKeyDown]. *)
Definition marks : gmap string string :=
  list_to_map
    [ ("b", "bold"); ("i", "italic"); ("u", "underlined");
      ("s", "strikethrough"); ("`", "code") ].

Section Editor.
Variable slate : Op -> State -> State.

Local Notation "t '.>' op" := (chain slate t op)
  (at level 50, left associativity).

Definition SoftBreak (options : SoftBreakOptions)
    (e : KeyEvent) (data : KeyData) (st : State) : Outcome :=
  if negb (String.eqb (data_key data) "enter") then Return false None
  else if sb_shift options && negb (shiftKey e) then Return false None
  else
    let defaultBlock := default "paragraph" (sb_defaultBlock options) in
    match startBlock st with
    | None => Throws
    | Some b =>
        let type := type b in
        let nodes := nodes b in
        if match sb_onlyIn options with
           | Some onlyIn => negb (includes onlyIn type)
           | None => false
           end
        then Return false None
        else if match sb_ignoreIn options with
                | Some ignoreIn => includes ignoreIn type
                | None => false
                end
        then Return false None
        else
          match last nodes with
          | Some (Text _ characters) =>
              let shouldClose :=
                forallb isNewline
                  (takeLast (default 0 (sb_closeAfter options)) characters) in
              match sb_closeAfter options with
              | Some (S _ as closeAfter) =>
                  if shouldClose then
                    let trimmed := transform st .> deleteBackward closeAfter in
                    let unwrapped :=
                      match sb_unwrapBlocks options with
                      | Some unwrapBlocks =>
                          fold_left
                            (fun acc blockType => acc .> unwrapBlock blockType)
                            unwrapBlocks trimmed
                      | None => trimmed
                      end in
                    Return false
                      (Some (apply defaults (unwrapped .> insertBlock defaultBlock)))
                  else
                    Return false
                      (Some (apply defaults (transform st .> insertText (String newline ""))))
              | _ =>
                  Return false
                    (Some (apply defaults (transform st .> insertText (String newline ""))))
              end
          | _ => Throws
          end
    end.

Definition BackspaceCloseBlock (options : BackspaceCloseBlockOptions)
    (e : KeyEvent) (data : KeyData) (st : State) : Outcome :=
  if negb (String.eqb (data_key data) "backspace") then Return false None
  else
    let defaultBlock := default "paragraph" (bs_defaultBlock options) in
    match startBlock st with
    | None => Throws
    | Some startBlock =>
        let type := type startBlock in
        if match bs_onlyIn options with
           | Some onlyIn => negb (includes onlyIn type)
           | None => false
           end
        then Return false None
        else if match bs_ignoreIn options with
                | Some ignoreIn => includes ignoreIn type
                | None => false
                end
        then Return false None
        else
          match getFirstText startBlock with
          | Some (Text _ characters) =>
              let isEmpty := match characters with [] => true | _ => false end in
              if isEmpty then
                Return false
                  (Some (apply defaults
                           (transform st .> insertBlock defaultBlock .> focus)))
              else Return false None
          | _ => Throws
          end
    end.

(** The first two entries of [slatePlugins]; the other two are the list
    and table editing plugins. *)
Definition softBreakOptions : SoftBreakOptions :=
  {| sb_shift := false; sb_onlyIn := None;
     sb_ignoreIn :=
       Some ["paragraph"; "list-item"; "numbered-list"; "bulleted-list";
             "table"; "table-row"; "table-cell"];
     sb_closeAfter := Some 1; sb_unwrapBlocks := None;
     sb_defaultBlock := None |}.

Definition backspaceOptions : BackspaceCloseBlockOptions :=
  {| bs_defaultBlock := None;
     bs_ignoreIn :=
       Some ["paragraph"; "list-item"; "bulleted-list"; "numbered-list";
             "table"; "table-row"; "table-cell"];
     bs_onlyIn := None |}.

Definition slatePlugins : list (KeyEvent -> KeyData -> State -> Outcome) :=
  [ SoftBreak softBreakOptions; BackspaceCloseBlock backspaceOptions ].

(** The handler's two parts in the order of the source: the Enter case,
    which returns only for a void, top-level, single selected block, and
    the [data.isMod] case, reached otherwise and bound here as
    [modifierKeys]. *)
Definition handleKeyDown (e : KeyEvent) (data : KeyData) (st : State)
  : Outcome :=
  let createDefaultBlock := createParagraph in
  let modifierKeys : Outcome :=
    if isMod data then
      if String.eqb (data_key data) "y" then
        Return true (Some (apply dontSave (transform st .> redo .> focus)))
      else if String.eqb (data_key data) "z" then
        Return true
          (Some (apply dontSave
                   (transform st .> (if isShift data then redo else undo) .> focus)))
      else
        match marks !! data_key data with
        | Some mark =>
            Return true (Some (apply defaults (transform st .> toggleMark mark)))
        | None => Return false None
        end
    else Return false None in
  if String.eqb (data_key data) "enter" then
    let doc := document st in
    let focusBlockIndex := indexOf (doc_nodes doc) (focusBlock st) in
    let focusBlockIsTopLevel := (focusBlockIndex >? -1)%Z in
    let focusBlockIsFirstChild := (focusBlockIndex =? 0)%Z in
    let singleBlockSelected := bool_decide (anchorBlock st = focusBlock st) in
    match focusBlock st with
    | None => Throws
    | Some fb =>
        if isVoid fb && focusBlockIsTopLevel && singleBlockSelected then
          let '(newBlock, st1) := createDefaultBlock st in
          let newBlockIndex :=
            if focusBlockIsFirstChild then 0%Z else (focusBlockIndex + 1)%Z in
          Return true
            (Some (apply defaults
                     (transform st1
                        .> insertNodeByKey (doc_key doc) newBlockIndex newBlock
                        .> collapseToStartOf newBlock)))
        else modifierKeys
    end
  else modifierKeys.

(** this.state.editorState.transform().focus().toggleMark(type).apply() *)
Definition handleMarkClick (markType : string) (editorState : State) : Applied :=
  apply defaults (transform editorState .> focus .> toggleMark markType).

(** ** The schema rule *)

Definition rule_match (k : Kind) : bool := Kind_eqb k kind_document.

(** [null] when the document is valid, a failure object otherwise. *)
Definition validate (doc : Document) : option unit :=
  let hasBlocks := negb (match getBlocks doc with [] => true | _ => false end) in
  if hasBlocks then None else Some tt.

Definition normalize (t : Transform) : Transform :=
  let '(block, st1) := createParagraph (state t) in
  let key := doc_key (document (state t)) in
  {| state := st1; operations := operations t |}
    .> insertNodeByKey key 0 block .> focus.

(** Modelled from the spec: the engine that runs the schema is Slate's
    editor, which is not part of this file; "a document is invalid if it
    has zero block children.  Normalization: insert one empty paragraph
    block at position 0 and move the cursor there.  This rule runs after
    every transform".  The engine enforces the editor's rule together with
    the library's own: the children of the document that are not blocks
    are removed, a document that fails [validate] goes through
    [normalize], and the selection is then brought back into the
    document. *)
Definition enforce (st : State) : State :=
  let st := onlyBlocks st in
  let st :=
    if rule_match kind_document then
      match validate (document st) with
      | Some _ => state (normalize (transform st))
      | None => st
      end
    else st in
  normalizeSelection st.
End Editor.

(** ** The initial editor state *)










Definition unsetSelection : Selection :=
  {| anchorKey := None; anchorOffset := 0; focusKey := None; focusOffset := 0;
     isBackward := false; isFocused := false |}.




(** ** toggleMark on a run of characters *)

Definition hasMark (m : string) (c : Character) : bool :=
  bool_decide (m ∈ char_marks c).

Definition addMark (m : string) (c : Character) : Character :=
  {| char_text := char_text c; char_marks := {[m]} ∪ char_marks c |}.

Definition removeMark (m : string) (c : Character) : Character :=
  {| char_text := char_text c; char_marks := char_marks c ∖ {[m]} |}.

(** The selected text: the characters at offsets [from] (included) to [to]
    (excluded). *)
Definition inSelection (from to i : nat) : bool :=
  Nat.leb from i && Nat.ltb i to.

Definition selectedText (from to : nat) (cs : list Character) : list Character :=
  take (to - from) (drop from cs).

Definition onSelectedText (f : Character -> Character) (from to : nat)
    (cs : list Character) : list Character :=
  imap (fun i c => if inSelection from to i then f c else c) cs.

(** Modelled from the spec: [toggleMark] is Slate's and not part of this
    file; "if any selected text lacks the mark, add it to all selected
    text; if all selected text already has it, remove it from all". *)
Definition toggleMarkOn (m : string) (from to : nat) (cs : list Character)
  : list Character :=
  if forallb (hasMark m) (selectedText from to cs)
  then onSelectedText (removeMark m) from to cs
  else onSelectedText (addMark m) from to cs.

(** ** Concrete documents and keys for the scenarios *)

(** A library that leaves every state alone, for statements that only
    concern the operations worked out above. *)
Definition inertSlate : Op -> State -> State := fun _ st => st.

Definition plain (s : string) : list Character :=
  List.map (fun a => {| char_text := a; char_marks := ∅ |}) (list_ascii_of_string s).

Definition enterKey : KeyData :=
  {| data_key := "enter"; isMod := false; isShift := false |}.

Definition backspaceKey : KeyData :=
  {| data_key := "backspace"; isMod := false; isShift := false |}.

Definition noShift : KeyEvent := {| shiftKey := false |}.

Definition cursorAt (k : Key) (offset : nat) : Selection :=
  {| anchorKey := Some k; anchorOffset := offset;
     focusKey := Some k; focusOffset := offset;
     isBackward := false; isFocused := true |}.

(** Scenario 5: [paragraph, voidShortcodeBlock], the void block selected. *)
Definition helloParagraph : Node := Block 1 "paragraph" false ∅ [Text 0 (plain "hello")].
Definition shortcodeBlock : Node := Block 3 "shortcode" true ∅ [Text 2 []].

Definition paragraphThenVoid : State :=
  {| document := {| doc_key := 4; doc_nodes := [helloParagraph; shortcodeBlock] |};
     selection := cursorAt 2 0;
     keygen := 5 |}.

(** The mirror image: [voidShortcodeBlock, paragraph]. *)
Definition voidThenParagraph : State :=
  {| document := {| doc_key := 4; doc_nodes := [shortcodeBlock; helloParagraph] |};
     selection := cursorAt 2 0;
     keygen := 5 |}.

(** Scenario 6: the cursor at the end of a code block whose text ends
    with a newline. *)
Definition codeBlock : Node :=
  Block 1 "code" false ∅ [Text 0 (plain "x" ++ [ {| char_text := newline; char_marks := ∅ |} ])].

Definition inCodeBlock : State :=
  {| document := {| doc_key := 2; doc_nodes := [codeBlock] |};
     selection := cursorAt 0 2;
     keygen := 3 |}.

(** Scenario 4: the cursor in an empty quote block. *)
Definition emptyQuote : Node := Block 1 "quote" false ∅ [Text 0 []].

Definition inEmptyQuote : State :=
  {| document := {| doc_key := 2; doc_nodes := [emptyQuote] |};
     selection := cursorAt 0 0;
     keygen := 3 |}.


(** Scenario 3 and a mixed selection: "ab" with only the first character
    bold, both characters selected. *)
Definition boldThenPlain : list Character :=
  [ {| char_text := "a"; char_marks := {["bold"]} |};
    {| char_text := "b"; char_marks := ∅ |} ].

(** Two editor components, and a serializer state that is the text written
    so far. *)
Definition youtube : Plugin :=
  {| plugin_id := "youtube"; plugin_label := "Youtube"; plugin_fields := ["id"];
     plugin_toBlock := fun attrs => "{{< youtube " +:+ default "" (attrs !! "id") +:+ " >}}" |}.

Definition gist : Plugin :=
  {| plugin_id := "gist"; plugin_label := "Gist"; plugin_fields := ["id"];
     plugin_toBlock := fun attrs => "<gist " +:+ default "" (attrs !! "id") +:+ ">" |}.

Definition appendWrite (content out : string) : string := out +:+ content.




Definition emptyDocument : State :=
  {| document := {| doc_key := 0; doc_nodes := [] |};
     selection := unsetSelection; keygen := 1 |}.

(** ** handleLink *)

(** What [handleLink] hands on: whether it asked for a URL, and the [href]
    of the link mark it toggles, [None] for [null]. *)
Record LinkCommand : Type := {
  link_prompted : bool;
  link_href : option string;
}.

(** [active] is the outcome of [markActive(...)] and [answer] what
    [prompt('Link URL:')] returns when it is called: [None] for [null]
    (the dialog was dismissed), the text typed otherwise.  An empty string
    is falsy. *)
Definition handleLink (active : bool) (answer : option string) : LinkCommand :=
  let url := if negb active then answer else None in
  {| link_prompted := negb active;
     link_href :=
       match url with
       | Some (String _ _ as u) => Some (processUrl u)
       | _ => None
       end |}.

(** ** schemaWithPlugins *)

(** { default: null } *)
Record AttrSpec : Type := {
  attr_default : option string;
}.

(** What [toDOM] returns: ['div', { 'data-plugin': ... }, label]. *)
Record DomSpec : Type := {
  dom_tag : string;
  dom_attrs : gmap string string;
  dom_content : string;
}.

(** The node spec built for a plugin. *)
Record PluginNodeSpec : Type := {
  spec_attrs : gmap string AttrSpec;
  spec_group : string;
  spec_parseTag : string;
  spec_getAttrs : DomSpec -> option (gmap string string);
  spec_toDOM : SerializedNode -> DomSpec;
}.

(** The ordered map holding a schema's node specs: [addToEnd] removes the
    key if it is present and appends the new entry. *)
Definition addToEnd {V : Type} (k : string) (v : V) (m : list (string * V))
  : list (string * V) :=
  List.filter (fun e => negb (String.eqb (fst e) k)) m ++ [(k, v)].

Section Schema.
(** The specs of the schema that is extended, and JSON. *)
Variable BaseSpec : Type.
Variable MarkSpec : Type.
Variable stringify : gmap string string -> string.
Variable parse : string -> gmap string string.

Record Schema : Type := {
  nodeSpec : list (string * (BaseSpec + PluginNodeSpec));
  markSpec : MarkSpec;
}.

(** The [attrs] object filled by the inner loop, as the map of its own
    properties.  [attrs[name] = ...] adds or replaces the property [name],
    except for the name __proto__: that assignment replaces the prototype
    of the object and adds no property. *)
Definition pluginAttrs (plugin : Plugin) : gmap string AttrSpec :=
  foldl (fun attrs name =>
           if String.eqb name "__proto__" then attrs
           else <[ name := {| attr_default := None |} ]> attrs)
        ∅ (plugin_fields plugin).

Definition pluginNodeSpec (plugin : Plugin) : PluginNodeSpec :=
  {| spec_attrs := pluginAttrs plugin;
     spec_group := "block";
     spec_parseTag := "div[data-plugin]";
     spec_getAttrs := fun dom => parse <$> dom_attrs dom !! "data-plugin";
     spec_toDOM := fun node =>
       {| dom_tag := "div";
          dom_attrs := {[ "data-plugin" := stringify (node_attrs node) ]};
          dom_content := plugin_label plugin |} |}.

Definition schemaWithPlugins (schema : Schema) (plugins : list Plugin) : Schema :=
  {| nodeSpec :=
       foldl (fun nodeSpec plugin =>
                addToEnd ("plugin_" +:+ plugin_id plugin)
                         (inr (pluginNodeSpec plugin)) nodeSpec)
             (nodeSpec schema) plugins;
     markSpec := markSpec schema |}.
End Schema.

Arguments nodeSpec {BaseSpec MarkSpec} _.
Arguments markSpec {BaseSpec MarkSpec} _.
Arguments schemaWithPlugins {BaseSpec MarkSpec} stringify parse schema plugins.

(** The name of the node kind and of the serializer entry of a plugin. *)
Definition pluginKind (plugin : Plugin) : string := "plugin_" +:+ plugin_id plugin.

(** Two components registered under one id. *)
Definition gistAgain : Plugin :=
  {| plugin_id := "gist"; plugin_label := "Gist (embed)"; plugin_fields := ["id"; "file"];
     plugin_toBlock := fun attrs => "[gist:" +:+ default "" (attrs !! "id") +:+ "]" |}.

(** A base schema of two node kinds, with JSON replaced by a stand-in that
    only keeps the "id" attribute. *)
Definition baseSchema : Schema string string :=
  {| nodeSpec := [("doc", inl "block+"); ("paragraph", inl "inline*")];
     markSpec := "marks" |}.

Definition idOnly (attrs : gmap string string) : string := default "" (attrs !! "id").
Definition fromId (s : string) : gmap string string := {[ "id" := s ]}.

(** A heading that holds only a link: an empty text, the link, an empty
    text, with the cursor in the link's text. *)
Definition linkHeading : Node :=
  Block 4 "heading-one" false ∅
    [ Text 0 []; Inline 2 "link" false ∅ [Text 1 (plain "x")]; Text 3 [] ].

Definition inLinkHeading : State :=
  {| document := {| doc_key := 5; doc_nodes := [linkHeading] |};
     selection := cursorAt 1 1;
     keygen := 6 |}.

(** An empty code block. *)
Definition emptyCode : Node := Block 1 "code" false ∅ [Text 0 []].

Definition inEmptyCode : State :=
  {| document := {| doc_key := 2; doc_nodes := [emptyCode] |};
     selection := cursorAt 0 0;
     keygen := 3 |}.

(** A void block inside a quote, selected. *)
Definition nestedVoid : State :=
  {| document := {| doc_key := 5;
                    doc_nodes := [Block 4 "quote" false ∅ [shortcodeBlock]] |};
     selection := cursorAt 2 0;
     keygen := 6 |}.

(** No selection at all. *)
Definition unselected : State :=
  {| document := {| doc_key := 2; doc_nodes := [emptyQuote] |};
     selection := unsetSelection;
     keygen := 3 |}.

(** The two filters of the plugins, [onlyIn] first, then [ignoreIn]. *)
Definition filteredOut (onlyIn ignoreIn : option (list string)) (type : string)
  : bool :=
  match onlyIn with
  | Some onlyIn => negb (includes onlyIn type)
  | None => false
  end
  || match ignoreIn with
     | Some ignoreIn => includes ignoreIn type
     | None => false
     end.

(** A soft break plugin without [closeAfter], and one that closes after
    two newlines inside quotes only. *)
Definition neverClosing : SoftBreakOptions :=
  {| sb_shift := true; sb_onlyIn := None; sb_ignoreIn := None;
     sb_closeAfter := None; sb_unwrapBlocks := None; sb_defaultBlock := None |}.

Definition quoteOnly : SoftBreakOptions :=
  {| sb_shift := false; sb_onlyIn := Some ["quote"]; sb_ignoreIn := Some ["quote"];
     sb_closeAfter := Some 2; sb_unwrapBlocks := Some ["quote"];
     sb_defaultBlock := None |}.

Definition withShift : KeyEvent := {| shiftKey := true |}.

(** A backspace plugin that closes headings only, into quotes. *)
Definition headingsToQuote : BackspaceCloseBlockOptions :=
  {| bs_defaultBlock := Some "quote"; bs_ignoreIn := None;
     bs_onlyIn := Some ["heading-one"; "heading-two"] |}.

(** The block types both plugins are told to ignore. *)
Definition ignoredTypes : list string :=
  ["paragraph"; "list-item"; "bulleted-list"; "numbered-list";
   "table"; "table-row"; "table-cell"].

Definition inHelloParagraph : State :=
  {| document := {| doc_key := 4; doc_nodes := [helloParagraph; shortcodeBlock] |};
     selection := cursorAt 0 5;
     keygen := 5 |}.

(** ** The toolbar's block buttons *)

Definition listTypes : list string := ["bulleted-list"; "numbered-list"].

Section BlockButtons.
Variable slate : Op -> State -> State.
(** [state.blocks], the blocks of the selection, and
    [document.getClosest(key, predicate)], the closest ancestor of the
    node with that key that satisfies the predicate, are the library's. *)
Variable blocks : State -> list Node.
Variable getClosest : Document -> Key -> (Node -> bool) -> option Node.

Local Notation "t '.>' op" := (chain slate t op)
  (at level 50, left associativity).

(** this.state.editorState.blocks.some(node => node.type === type) *)
Definition hasBlock (editorState : State) (blockType : string) : bool :=
  existsb (fun node => String.eqb (type node) blockType) (blocks editorState).

(** editorState.blocks.some(block =>
      !!doc.getClosest(block.key, parent => parent.type === type)) *)
Definition isType (editorState : State) (blockType : string) : bool :=
  let doc := document editorState in
  existsb (fun block =>
             match getClosest doc (key block)
                     (fun parent => String.eqb (type parent) blockType) with
             | Some _ => true
             | None => false
             end)
          (blocks editorState).

(** The transform is one object that every call updates and returns, so
    the calls made on it in a branch are part of what is applied at the
    end. *)
Definition handleBlockClick (blockType : string) (editorState : State) : Applied :=
  let transform := transform editorState in
  let isList := hasBlock editorState "list-item" in
  let transform :=
    if negb (includes ["bulleted-list"; "numbered-list"] blockType) then
      let isActive := hasBlock editorState blockType in
      let transformed :=
        transform .> setBlock (if isActive then DEFAULT_NODE else blockType) in
      if isList then
        transformed .> unwrapBlock "bulleted-list" .> unwrapBlock "numbered-list"
      else transformed
    else
      let isType := isType editorState blockType in
      if isList && isType then
        transform .> setBlock DEFAULT_NODE
                  .> unwrapBlock "bulleted-list"
                  .> unwrapBlock "numbered-list"
      else if isList then
        transform
          .> unwrapBlock (if String.eqb blockType "bulleted-list"
                          then "numbered-list" else "bulleted-list")
          .> wrapBlock blockType
      else
        transform .> setBlock "list-item" .> wrapBlock blockType in
  apply defaults (transform .> focus).
End BlockButtons.

(** What a block button may ask of the editor. *)
Definition buttonOp (blockType : string) (op : Op) : Prop :=
  match op with
  | setBlock t => t = blockType \/ t = DEFAULT_NODE \/ t = "list-item"
  | wrapBlock t => t = blockType /\ In blockType listTypes
  | unwrapBlock t => In t listTypes
  | focus => True
  | _ => False
  end.

(** A bulleted list of one item, the cursor in the item. *)
Definition listItem : Node := Block 1 "list-item" false ∅ [Text 0 (plain "x")].

Definition bulletedList : Node := Block 2 "bulleted-list" false ∅ [listItem].

Definition inListItem : State :=
  {| document := {| doc_key := 3; doc_nodes := [bulletedList] |};
     selection := cursorAt 0 1;
     keygen := 4 |}.

(** The blocks of a collapsed selection: the block the cursor is in. *)
Definition cursorBlocks (st : State) : list Node :=
  match startBlock st with Some b => [b] | None => [] end.

(** The ancestors in [inListItem]: the bulleted list and nothing else. *)
Definition closestInList (doc : Document) (k : Key) (p : Node -> bool)
  : option Node :=
  if p bulletedList then Some bulletedList else None.

(** ** The library at the cursor

    [deleteBackward] and [insertBlock] are Slate's and the file only calls
    them.  They are modelled below for a cursor, that is a collapsed
    selection, in a block that is not void; in every other situation the
    model says nothing and the operation is left to a parameter. *)





















(** * Proofs *)

(** ** The matcher decides the language *)

Lemma append_nil_l (s : string) : "" +:+ s = s.
Proof. reflexivity. Qed.

Lemma append_cons (a : ascii) (s t : string) :
  String a s +:+ t = String a (s +:+ t).
Proof. reflexivity. Qed.

Lemma append_empty_r (s : string) : s +:+ "" = s.
Proof.
  induction s as [|a s IH]; [reflexivity | now rewrite append_cons, IH].
Qed.

Lemma append_assoc_str (s1 s2 s3 : string) :
  (s1 +:+ s2) +:+ s3 = s1 +:+ (s2 +:+ s3).
Proof.
  induction s1 as [|a s1 IH]; [reflexivity | now rewrite !append_cons, IH].
Qed.

Lemma append_eq_empty (s1 s2 : string) :
  s1 +:+ s2 = "" -> s1 = "" /\ s2 = "".
Proof.
  destruct s1; [rewrite append_nil_l; tauto | rewrite append_cons; discriminate].
Qed.

Lemma matches_nullable (r : regex) (s : string) :
  matches r s -> s = "" -> nullable r = true.
Proof.
  induction 1 as [ | | | r1 r2 s1 s2 _ IH1 _ IH2 | r1 r2 s _ IH | r1 r2 s _ IH
                 | | | r s _ IH | r s1 s2 _ IH1 _ IH2 ]; intros E; simpl;
    try reflexivity; try discriminate.
  - apply append_eq_empty in E as [-> ->]. now rewrite IH1, IH2.
  - now rewrite IH.
  - rewrite (IH E). apply orb_true_r.
  - auto.
  - apply append_eq_empty in E as [-> _]. auto.
Qed.

Lemma nullable_matches (r : regex) : nullable r = true -> matches r "".
Proof.
  induction r as [ | | c | c | r1 IH1 r2 IH2 | r1 IH1 r2 IH2 | r IH | r IH ];
    simpl; intros H; try discriminate.
  - constructor.
  - apply andb_true_iff in H as [H1 H2].
    change "" with ("" +:+ ""). constructor; auto.
  - apply orb_true_iff in H as [H | H]; [apply MAltL | apply MAltR]; auto.
  - constructor.
  - apply MPlusOne; auto.
Qed.

Lemma deriv_sound (a : ascii) (r : regex) :
  forall s, matches (deriv a r) s -> matches r (String a s).
Proof.
  induction r as [ | | c | c | r1 IH1 r2 IH2 | r1 IH1 r2 IH2 | r IH | r IH ];
    simpl; intros s H.
  - inversion H.
  - inversion H.
  - destruct (Ascii.eqb_spec a c) as [-> | ]; inversion H; subst. constructor.
  - destruct (Ascii.eqb_spec a c) as [-> | Hne]; inversion H; subst.
    now constructor.
  - destruct (nullable r1) eqn:N.
    + inversion H as [ | | | | ? ? ? HL | ? ? ? HR | | | | ]; subst.
      * inversion HL; subst.
        change (String a (s1 +:+ s2)) with (String a s1 +:+ s2).
        constructor; auto.
      * change (String a s) with ("" +:+ String a s).
        constructor; [now apply nullable_matches | auto].
    + inversion H; subst.
      change (String a (s1 +:+ s2)) with (String a s1 +:+ s2).
      constructor; auto.
  - inversion H; subst; [apply MAltL | apply MAltR]; auto.
  - apply MOptSome; auto.
  - inversion H as [ | | | ? ? s1 s2 H1 H2 | | | | | | ]; subst.
    inversion H2; subst.
    + rewrite append_empty_r. apply MPlusOne; auto.
    + change (String a (s1 +:+ s2)) with (String a s1 +:+ s2).
      apply MPlusMore; auto.
Qed.

Lemma deriv_complete (a : ascii) (r : regex) (t : string) :
  matches r t -> forall s, t = String a s -> matches (deriv a r) s.
Proof.
  induction 1 as [ | c | c b Hne | r1 r2 s1 s2 H1 IH1 H2 IH2
                 | r1 r2 s0 _ IH | r1 r2 s0 _ IH
                 | | r s0 _ IH | r s0 _ IH | r s1 s2 H1 IH1 H2 IH2 ];
    intros s E; simpl.
  - discriminate.
  - injection E as -> <-. rewrite Ascii.eqb_refl. constructor.
  - injection E as -> <-.
    destruct (Ascii.eqb_spec a c) as [-> | _]; [congruence | constructor].
  - destruct s1 as [|b s1];
      [rewrite append_nil_l in E | rewrite append_cons in E].
    + rewrite (matches_nullable _ _ H1 eq_refl). apply MAltR. auto.
    + injection E as -> <-.
      destruct (nullable r1); [apply MAltL | ]; constructor; auto.
  - apply MAltL; auto.
  - apply MAltR; auto.
  - discriminate.
  - auto.
  - rewrite <- (append_empty_r s). constructor; [auto | constructor].
  - destruct s1 as [|b s1];
      [rewrite append_nil_l in E | rewrite append_cons in E].
    + auto.
    + injection E as -> <-. constructor; [auto | ].
      apply MOptSome. exact H2.
Qed.

Lemma test_anchored_spec (r : regex) (s : string) :
  test_anchored r s = true <->
  exists p q, s = p +:+ q /\ matches r p.
Proof.
  revert r. induction s as [|a s IH]; intros r; simpl.
  - rewrite orb_false_r. split.
    + intros N. exists "", "". split; [reflexivity | now apply nullable_matches].
    + intros (p & q & E & M). symmetry in E.
      apply append_eq_empty in E as [-> _].
      eapply matches_nullable; eauto.
  - rewrite orb_true_iff, IH. split.
    + intros [N | (p & q & E & M)].
      * exists "", (String a s). split; [reflexivity | now apply nullable_matches].
      * exists (String a p), q. split; [now rewrite append_cons, E | ].
        now apply deriv_sound.
    + intros (p & q & E & M).
      destruct p as [|b p]; [rewrite append_nil_l in E | rewrite append_cons in E].
      * left. eapply matches_nullable; eauto.
      * injection E as <- ->. right. exists p, q. split; [reflexivity | ].
        eapply deriv_complete; eauto.
Qed.

(** ** The two literals of processUrl *)

Lemma matches_lit (p s : string) : matches (lit p) s <-> s = p.
Proof.
  revert s. induction p as [|a p IH]; intros s; simpl; split.
  - inversion 1; reflexivity.
  - intros ->. constructor.
  - inversion 1 as [ | | | ? ? s1 s2 H1 H2 | | | | | | ]; subst.
    inversion H1; subst. apply IH in H2 as ->. reflexivity.
  - intros ->. change (String a p) with (String a "" +:+ p).
    constructor; [constructor | now apply IH].
Qed.

Lemma startsWith_spec (p s : string) :
  startsWith p s = true <-> exists q, s = p +:+ q.
Proof.
  revert s. induction p as [|a p IH]; intros s; simpl.
  - split; [intros _; now exists s | reflexivity].
  - destruct s as [|b s].
    + split; [discriminate | intros [q E]; rewrite append_cons in E; discriminate].
    + rewrite andb_true_iff, IH. split.
      * intros [E [q ->]]. apply Ascii.eqb_eq in E as ->. now exists q.
      * intros [q E]. rewrite append_cons in E. injection E as -> ->.
        split; [apply Ascii.eqb_refl | now exists q].
Qed.

Lemma test_anchored_lit (p s : string) :
  test_anchored (lit p) s = startsWith p s.
Proof.
  apply eq_true_iff_eq. rewrite test_anchored_spec, startsWith_spec. split.
  - intros (p' & q & -> & M). apply matches_lit in M as ->. now exists q.
  - intros [q ->]. exists p, q. split; [reflexivity | now apply matches_lit].
Qed.

Lemma matches_absolute_re (p : string) :
  matches absolute_re p <->
  p = "http://" \/ p = "https://" \/ p = "mailto:" \/ p = "/".
Proof.
  unfold absolute_re. split.
  - inversion 1 as [ | | | | ? ? ? HL | ? ? ? HR | | | | ]; subst.
    + inversion HL as [ | | | ? ? s1 s2 H1 H2 | | | | | | ]; subst.
      apply (matches_lit "http") in H1 as ->.
      inversion H2 as [ | | | ? ? s3 s4 H3 H4 | | | | | | ]; subst.
      apply (matches_lit "://") in H4 as ->.
      inversion H3 as [ | | | | | | | ? ? H5 | | ]; subst.
      * left. reflexivity.
      * inversion H5; subst. right; left. reflexivity.
    + inversion HR as [ | | | | ? ? ? HL' | ? ? ? HR' | | | | ]; subst.
      * apply (matches_lit "mailto:") in HL' as ->. tauto.
      * inversion HR'; subst. tauto.
  - intros [-> | [-> | [-> | ->]]].
    + apply MAltL. change "http://" with ("http" +:+ ("" +:+ "://")).
      constructor; [now apply matches_lit | ].
      constructor; [apply MOptNone | now apply matches_lit].
    + apply MAltL. change "https://" with ("http" +:+ ("s" +:+ "://")).
      constructor; [now apply matches_lit | ].
      constructor; [apply MOptSome; constructor | now apply matches_lit].
    + apply MAltR, MAltL. now apply matches_lit.
    + apply MAltR, MAltR. constructor.
Qed.

Lemma test_absolute_re (url : string) :
  test_anchored absolute_re url =
  startsWith "http://" url || startsWith "https://" url
  || startsWith "mailto:" url || startsWith "/" url.
Proof.
  apply eq_true_iff_eq.
  rewrite test_anchored_spec, !orb_true_iff, !startsWith_spec. split.
  - intros (p & q & -> & M). apply matches_absolute_re in M.
    destruct M as [-> | [-> | [-> | ->]]]; eauto.
  - intros [[[[q ->] | [q ->]] | [q ->]] | [q ->]];
      eexists _, q; (split; [reflexivity | apply matches_absolute_re]); tauto.
Qed.

Lemma matches_plus_not (c : ascii) (s : string) :
  matches (Plus (NotChr c)) s <->
  s <> "" /\ forall a, In a (list_ascii_of_string s) -> a <> c.
Proof.
  split.
  - remember (Plus (NotChr c)) as r eqn:R. intros M.
    induction M as [ | | | | | | | | r s M _ | r s1 s2 M1 _ M2 IH ];
      try discriminate; injection R as ->.
    + inversion M; subst. split; [discriminate | ].
      intros b [<- | []]. assumption.
    + inversion M1; subst. destruct (IH eq_refl) as [_ IH2].
      rewrite append_cons, append_nil_l. split; [discriminate | ].
      intros b [<- | Hb]; auto.
  - intros [Hne Hall]. induction s as [|a s IH]; [congruence | ].
    assert (Ha : a <> c) by (apply Hall; now left).
    destruct s as [|b s].
    + apply MPlusOne. now constructor.
    + change (String a (String b s)) with (String a "" +:+ String b s).
      apply MPlusMore; [now constructor | ].
      apply IH; [discriminate | ]. intros x Hx. apply Hall. now right.
Qed.

Lemma test_domain_re (url : string) :
  test_anchored domain_re url = true <-> bareDomainShape url.
Proof.
  rewrite test_anchored_spec. unfold domain_re, bareDomainShape. split.
  - intros (p & q & -> & M).
    inversion M as [ | | | ? ? s1 s2 H1 H2 | | | | | | ]; subst.
    inversion H2 as [ | | | ? ? s3 s4 H3 H4 | | | | | | ]; subst.
    inversion H3; subst.
    apply matches_plus_not in H1 as [N1 A1].
    apply matches_plus_not in H4 as [N4 A4].
    destruct s4 as [|b s4]; [congruence | ].
    exists s1, b, (s4 +:+ q).
    rewrite !append_assoc_str, !append_cons, append_nil_l.
    repeat split; auto. apply A4. now left.
  - intros (p & b & rest & -> & N & A & B).
    exists (p +:+ String "." (String b "")), rest. split.
    + now rewrite append_assoc_str, !append_cons, append_nil_l.
    + constructor; [apply matches_plus_not; auto | ].
      change (String "." (String b "")) with (String "." "" +:+ String b "").
      constructor; [constructor | ]. apply MPlusOne. now constructor.
Qed.

Lemma notSlash_spec (a : ascii) : notSlash a = true <-> a <> "/"%char.
Proof.
  unfold notSlash. destruct (Ascii.eqb_spec a "/"); simpl; split; congruence.
Qed.

Lemma dotThenNonSlash_spec (s : string) :
  dotThenNonSlash s = true <->
  exists p b rest,
    s = p +:+ String "." (String b rest) /\
    (forall a, In a (list_ascii_of_string p) -> a <> "/"%char) /\
    b <> "/"%char.
Proof.
  induction s as [|a s IH]; simpl.
  - split; [discriminate | ].
    intros (p & b & rest & E & _). destruct p; discriminate.
  - destruct s as [|b s].
    + split; [discriminate | ].
      intros ([|x [|y p]] & b & rest & E & _); discriminate.
    + rewrite orb_true_iff, !andb_true_iff, IH, !notSlash_spec. split.
      * intros [[E B] | [A (p & b' & rest & E & P & B)]].
        -- apply Ascii.eqb_eq in E as ->. exists "", b, s.
           repeat split; auto.
        -- exists (String a p), b', rest. rewrite append_cons, E.
           repeat split; auto. intros x [<- | Hx]; auto.
      * intros ([|x p] & b' & rest & E & P & B).
        -- rewrite append_nil_l in E. injection E as -> -> ->.
           left. split; [reflexivity | assumption].
        -- rewrite append_cons in E. injection E as -> E.
           right. split; [apply P; now left | ].
           exists p, b', rest. repeat split; auto.
           intros y Hy. apply P. now right.
Qed.

Lemma bareDomain_spec (s : string) :
  bareDomain s = true <-> bareDomainShape s.
Proof.
  unfold bareDomainShape. destruct s as [|a s]; simpl.
  - split; [discriminate | ].
    intros (p & b & rest & E & _). destruct p; discriminate.
  - rewrite andb_true_iff, notSlash_spec, dotThenNonSlash_spec. split.
    + intros [A (p & b & rest & -> & P & B)].
      exists (String a p), b, rest. rewrite append_cons.
      repeat split; auto; try discriminate. intros x [<- | Hx]; auto.
    + intros ([|x p] & b & rest & E & N & P & B); [congruence | ].
      rewrite append_cons in E. injection E as -> ->.
      split; [apply P; now left | ].
      exists p, b, rest. repeat split; auto. intros y Hy. apply P. now right.
Qed.

(** C10. For every string [url], [processUrl] returns [url] unchanged when
    it begins with "http://", "https://", "mailto:" or "/"; otherwise it
    prepends "https://" when [url] begins with one or more non-slash
    characters, a dot and a non-slash character; otherwise it prepends
    "/".  The bare-domain test [bareDomain] holds exactly on the strings
    of that shape ([bareDomainShape]). *)
Theorem processUrl_as_described :
  (forall url : string, processUrl url = processUrl_described url) /\
  (forall url : string, bareDomain url = true <-> bareDomainShape url).
Proof.
  split; [ | exact bareDomain_spec].
  intros url. unfold processUrl, processUrl_described.
  rewrite test_absolute_re.
  replace (test_anchored domain_re url) with (bareDomain url); [reflexivity | ].
  apply eq_true_iff_eq. now rewrite bareDomain_spec, test_domain_re.
Qed.

Example processUrl_examples :
  processUrl "https://example.com/a" = "https://example.com/a" /\
  processUrl "mailto:someone@example.com" = "mailto:someone@example.com" /\
  processUrl "/uploads/a.png" = "/uploads/a.png" /\
  processUrl "example.com" = "https://example.com" /\
  processUrl "example.com/a" = "https://example.com/a" /\
  processUrl "uploads/a.png" = "/uploads/a.png" /\
  processUrl ".com" = "/.com" /\
  processUrl "about" = "/about" /\
  processUrl "" = "/".
Proof. vm_compute. repeat split. Qed.


(** ** createSerializer *)

Lemma plugin_key_inj (a b : string) :
  "plugin_" +:+ a = "plugin_" +:+ b -> a = b.
Proof.
  rewrite !append_cons, !append_nil_l. intros H. now injection H.
Qed.

Lemma createSerializer_cons {S : Type} (write : string -> S -> S)
    (nodes : gmap string (NodeSerializer S)) (q : Plugin) (plugins : list Plugin) :
  createSerializer write nodes (q :: plugins) =
  createSerializer write
    (<[ "plugin_" +:+ plugin_id q := pluginSerializer write q ]> nodes) plugins.
Proof. reflexivity. Qed.

Lemma createSerializer_other {S : Type} (write : string -> S -> S)
    (plugins : list Plugin) :
  forall (nodes : gmap string (NodeSerializer S)) (x : string),
    ~ In x (List.map plugin_id plugins) ->
    createSerializer write nodes plugins !! ("plugin_" +:+ x) =
    nodes !! ("plugin_" +:+ x).
Proof.
  induction plugins as [|q plugins IH]; intros nodes x Hx; [reflexivity | ].
  rewrite createSerializer_cons, IH.
  - apply lookup_insert_ne. intros E. apply plugin_key_inj in E.
    apply Hx. left. exact E.
  - intros Hin. apply Hx. right. exact Hin.
Qed.

Lemma createSerializer_registered {S : Type} (write : string -> S -> S)
    (plugins : list Plugin) :
  forall (nodes : gmap string (NodeSerializer S)) (p : Plugin),
    List.NoDup (List.map plugin_id plugins) ->
    In p plugins ->
    createSerializer write nodes plugins !! ("plugin_" +:+ plugin_id p) =
    Some (pluginSerializer write p).
Proof.
  induction plugins as [|q plugins IH]; intros nodes p ND Hp; [destruct Hp | ].
  rewrite createSerializer_cons. simpl in ND.
  apply List.NoDup_cons_iff in ND as [Hq ND].
  destruct Hp as [-> | Hp].
  - rewrite createSerializer_other by exact Hq. apply lookup_insert_eq.
  - now apply IH.
Qed.

Lemma createSerializer_app {S : Type} (write : string -> S -> S)
    (nodes : gmap string (NodeSerializer S)) (l1 l2 : list Plugin) :
  createSerializer write nodes (l1 ++ l2) =
  createSerializer write (createSerializer write nodes l1) l2.
Proof. unfold createSerializer. apply foldl_app. Qed.

Lemma createSerializer_last {S : Type} (write : string -> S -> S)
    (nodes : gmap string (NodeSerializer S)) (before after : list Plugin)
    (p : Plugin) :
  ~ In (plugin_id p) (List.map plugin_id after) ->
  createSerializer write nodes (before ++ p :: after) !! ("plugin_" +:+ plugin_id p)
  = Some (pluginSerializer write p).
Proof.
  intros H. rewrite createSerializer_app, createSerializer_cons.
  rewrite createSerializer_other by exact H. apply lookup_insert_eq.
Qed.

Lemma last_of_id (plugins : list Plugin) (x : string) :
  In x (List.map plugin_id plugins) ->
  exists (before after : list Plugin) (q : Plugin),
    plugins = before ++ q :: after /\
    plugin_id q = x /\
    ~ In x (List.map plugin_id after).
Proof.
  induction plugins as [|y l IH]; intros Hx; [destruct Hx | ].
  destruct (in_dec String.string_dec x (List.map plugin_id l)) as [Hin | Hout].
  - destruct (IH Hin) as (b & a & q & -> & Eq & Ha).
    exists (y :: b), a, q. repeat split; assumption.
  - exists [], l, y. repeat split; [ | exact Hout].
    destruct Hx as [E | Hx]; [exact E | contradiction].
Qed.

(** C9. For every registered plugin with id X, whatever the list of
    plugins, the serializer's entry for the node kind plugin_X calls the
    toBlock of the last registered plugin with id X on the node's
    attributes and writes the returned string followed by two newline
    characters: the node contributes that string and nothing of its
    structure.  The toBlock called is the plugin's own as soon as no
    later plugin shares its id. *)
Theorem plugin_nodes_serialized {S : Type} (write : string -> S -> S)
    (nodes : gmap string (NodeSerializer S)) (plugins : list Plugin) (p : Plugin) :
  In p plugins ->
  (exists (before after : list Plugin) (q : Plugin) (f : NodeSerializer S),
     plugins = before ++ q :: after /\
     plugin_id q = plugin_id p /\
     ~ In (plugin_id p) (List.map plugin_id after) /\
     createSerializer write nodes plugins !! ("plugin_" +:+ plugin_id p) = Some f /\
     forall (state : S) (node : SerializedNode),
       f state node =
       write (plugin_toBlock q (node_attrs node)
                +:+ String newline (String newline "")) state) /\
  (forall before after : list Plugin,
     plugins = before ++ p :: after ->
     ~ In (plugin_id p) (List.map plugin_id after) ->
     exists f : NodeSerializer S,
       createSerializer write nodes plugins !! ("plugin_" +:+ plugin_id p) = Some f /\
       forall (state : S) (node : SerializedNode),
         f state node =
         write (plugin_toBlock p (node_attrs node)
                  +:+ String newline (String newline "")) state).
Proof.
  intros Hp. split.
  - destruct (last_of_id plugins (plugin_id p) (in_map plugin_id _ _ Hp))
      as (before & after & q & -> & Eq & Ha).
    exists before, after, q, (pluginSerializer write q).
    split; [reflexivity | ]. split; [exact Eq | ]. split; [exact Ha | ].
    split; [ | reflexivity].
    rewrite <- Eq. apply createSerializer_last. now rewrite Eq.
  - intros before after -> Ha. exists (pluginSerializer write p).
    split; [now apply createSerializer_last | reflexivity].
Qed.

Lemma plugin_nodes_serialized_witness :
  exists f : NodeSerializer string,
    createSerializer appendWrite ∅ [youtube; gist] !! "plugin_gist" = Some f /\
    f "" {| node_kind := "plugin_gist"; node_attrs := {[ "id" := "42" ]} |} =
      "<gist 42>" +:+ String newline (String newline "").
Proof.
  destruct (plugin_nodes_serialized appendWrite ∅ [youtube; gist] gist)
    as [_ H].
  - right. left. reflexivity.
  - destruct (H [youtube] [] eq_refl) as (f & Hf & Hw).
    + intros [].
    + exists f. split; [exact Hf | ]. rewrite Hw. vm_compute. reflexivity.
Defined.

(** C9, as the claim words it.  With two plugins of id gist registered,
    the first is a registered plugin with id gist, yet a node of kind
    plugin_gist is serialized with the toBlock of the second: what is
    written is not what the first plugin's toBlock returns. *)
Lemma earlier_plugin_overwritten :
  In gist [gist; youtube; gistAgain] /\
  exists f : NodeSerializer string,
    createSerializer appendWrite ∅ [gist; youtube; gistAgain]
      !! ("plugin_" +:+ plugin_id gist) = Some f /\
    f "" {| node_kind := "plugin_gist"; node_attrs := {[ "id" := "42" ]} |}
      = "[gist:42]" +:+ String newline (String newline "") /\
    f "" {| node_kind := "plugin_gist"; node_attrs := {[ "id" := "42" ]} |}
      <> appendWrite
           (plugin_toBlock gist {[ "id" := "42" ]}
              +:+ String newline (String newline "")) "".
Proof.
  split; [left; reflexivity | ].
  exists (pluginSerializer appendWrite gistAgain). split; [ | split].
  - exact (createSerializer_last appendWrite ∅ [gist; youtube] [] gistAgain
             (fun H => H)).
  - vm_compute. reflexivity.
  - vm_compute. discriminate.
Qed.


(** ** The key map of handleKeyDown *)

Lemma marks_lookup :
  marks !! "b" = Some "bold" /\ marks !! "i" = Some "italic" /\
  marks !! "u" = Some "underlined" /\ marks !! "s" = Some "strikethrough" /\
  marks !! "`" = Some "code".
Proof. vm_compute. repeat split. Qed.

Lemma mod_key_toggles (slate : Op -> State -> State) (e : KeyEvent)
    (k mark : string) (shift : bool) (st : State) :
  String.eqb k "enter" = false -> String.eqb k "y" = false ->
  String.eqb k "z" = false -> marks !! k = Some mark ->
  handleKeyDown slate e {| data_key := k; isMod := true; isShift := shift |} st =
  Return true
    (Some (apply defaults (chain slate (transform st) (toggleMark mark)))).
Proof.
  intros He Hy Hz Hm. unfold handleKeyDown. simpl. now rewrite He, Hy, Hz, Hm.
Qed.

(** With the modifier held, b, i, s and ` toggle bold, italic,
    strikethrough and code. *)
Lemma mod_b_i_s_backtick (slate : Op -> State -> State) (e : KeyEvent)
    (shift : bool) (st : State) :
  let press k :=
    handleKeyDown slate e {| data_key := k; isMod := true; isShift := shift |} st in
  let toggles m :=
    Return true (Some (apply defaults (chain slate (transform st) (toggleMark m)))) in
  press "b" = toggles "bold" /\ press "i" = toggles "italic" /\
  press "s" = toggles "strikethrough" /\ press "`" = toggles "code".
Proof.
  destruct marks_lookup as (Hb & Hi & _ & Hs & Hc).
  repeat split; now apply mod_key_toggles.
Qed.

(** C6. With the modifier held, u toggles the mark type "underlined",
    which is not the "underline" of the mark tag table: the key map and
    the table disagree on the name of this one mark. *)
Theorem mod_u_toggles_underlined (slate : Op -> State -> State) (e : KeyEvent)
    (shift : bool) (st : State) :
  handleKeyDown slate e {| data_key := "u"; isMod := true; isShift := shift |} st =
  Return true
    (Some (apply defaults (chain slate (transform st) (toggleMark "underlined")))) /\
  MARK_TAGS !! "u" = Some "underline" /\
  "underlined" <> "underline".
Proof.
  destruct marks_lookup as (_ & _ & Hu & _ & _).
  split; [now apply mod_key_toggles | ].
  split; [vm_compute; reflexivity | discriminate].
Qed.

(** C7. With the modifier held, z undoes (redoes when shift is held too)
    and y redoes, and each of these transforms is applied with save set
    to false. *)
Theorem history_keys_do_not_save (slate : Op -> State -> State) (e : KeyEvent)
    (shift : bool) (st : State) :
  let press k :=
    handleKeyDown slate e {| data_key := k; isMod := true; isShift := shift |} st in
  (exists a, press "z" = Return true (Some a) /\
             applied a = [if shift then redo else undo; focus] /\
             next a = perform slate focus
                        (perform slate (if shift then redo else undo) st) /\
             save (applyOptions a) = Some false) /\
  (exists a, press "y" = Return true (Some a) /\
             applied a = [redo; focus] /\
             next a = perform slate focus (perform slate redo st) /\
             save (applyOptions a) = Some false).
Proof.
  split; eexists; (split; [reflexivity | ]); repeat split.
Qed.

(** ** Enter on a top-level void block *)

Lemma indexOfFrom_found (x : Node) (l : list Node) :
  forall j i : Z,
    indexOfFrom j x l = i -> (0 <= j)%Z -> (0 <= i)%Z ->
    (j <= i)%Z /\ l !! Z.to_nat (i - j) = Some x.
Proof.
  induction l as [|y l IH]; simpl; intros j i E Hj Hi.
  - lia.
  - destruct (decide (y = x)) as [-> | _].
    + subst i. split; [lia | ]. now rewrite Z.sub_diag.
    + destruct (IH _ _ E ltac:(lia) Hi) as [Hle Hl]. split; [lia | ].
      replace (Z.to_nat (i - j)) with (S (Z.to_nat (i - (j + 1)))) by lia.
      exact Hl.
Qed.

Lemma indexOf_found (x : Node) (l : list Node) (i : Z) :
  indexOf l (Some x) = i -> (0 <= i)%Z -> l !! Z.to_nat i = Some x.
Proof.
  intros E Hi. destruct (indexOfFrom_found x l 0 i E ltac:(lia) Hi) as [_ H].
  now rewrite Z.sub_0_r in H.
Qed.

Lemma splice_in_range (i : Z) (x : Node) (l : list Node) :
  (0 <= i <= Z.of_nat (length l))%Z ->
  splice i x l = take (Z.to_nat i) l ++ x :: drop (Z.to_nat i) l.
Proof.
  intros H. unfold splice.
  destruct (Z.ltb_spec i 0) as [? | _]; [lia | ].
  now rewrite Z.min_l by lia.
Qed.

Lemma splice_front (x : Node) (l : list Node) : splice 0 x l = x :: l.
Proof. rewrite splice_in_range by lia. simpl. now rewrite drop_0. Qed.

(** C2, the rule.  Enter, with a void focus block that is a child of the
    document and is the anchor block too: the handler prevents the
    default and inserts a new empty paragraph under the document's key, at
    index 0 when the void block is the first child and just after the
    void block otherwise, then collapses the selection to the start of the
    new paragraph.  In the resulting document the void block sits at
    index 1 behind the new paragraph in the first case, and keeps its
    index, followed by the new paragraph, in the second. *)
Theorem enter_on_void_block (slate : Op -> State -> State) (e : KeyEvent)
    (data : KeyData) (st : State) (fb : Node) (i : Z) :
  data_key data = "enter" ->
  focusBlock st = Some fb ->
  isVoid fb = true ->
  indexOf (doc_nodes (document st)) (Some fb) = i -> (0 <= i)%Z ->
  anchorBlock st = focusBlock st ->
  let newBlock := fst (createParagraph st) in
  let index := if (i =? 0)%Z then 0%Z else (i + 1)%Z in
  exists a : Applied,
    handleKeyDown slate e data st = Return true (Some a) /\
    newBlock = Block (S (keygen st)) "paragraph" false ∅ [Text (keygen st) []] /\
    applied a = [ insertNodeByKey (doc_key (document st)) index newBlock;
                  collapseToStartOf newBlock ] /\
    doc_nodes (document (next a)) !! Z.to_nat index = Some newBlock /\
    doc_nodes (document (next a)) !! (if (i =? 0)%Z then 1 else Z.to_nat i) = Some fb /\
    length (doc_nodes (document (next a))) = S (length (doc_nodes (document st))) /\
    anchorKey (selection (next a)) = Some (keygen st) /\
    anchorOffset (selection (next a)) = 0 /\
    focusKey (selection (next a)) = Some (keygen st) /\
    focusOffset (selection (next a)) = 0 /\
    hasFocusIn (selection (next a)) newBlock = true.
Proof.
  intros Hkey Hfb Hvoid Hidx Hi Hanchor newBlock index.
  pose proof (indexOf_found _ _ _ Hidx Hi) as Hat.
  assert (Hlen : (i < Z.of_nat (length (doc_nodes (document st))))%Z).
  { apply lookup_lt_Some in Hat. lia. }
  eexists. split.
  - unfold handleKeyDown. rewrite Hkey. simpl String.eqb. cbv iota.
    rewrite Hanchor, Hfb, Hidx, Hvoid, bool_decide_eq_true_2 by reflexivity.
    replace (i >? -1)%Z with true by (symmetry; apply Z.gtb_lt; lia).
    reflexivity.
  - unfold apply, chain, transform, perform, insertInDocument,
      collapseSelectionToStartOf. simpl.
    rewrite Nat.eqb_refl. simpl. fold index.
    assert (Enb : newBlock =
                  Block (S (keygen st)) "paragraph" false ∅ [Text (keygen st) []])
      by reflexivity.
    rewrite <- Enb.
    assert (Hsplice :
      splice index newBlock (doc_nodes (document st)) =
      take (Z.to_nat index) (doc_nodes (document st))
        ++ newBlock :: drop (Z.to_nat index) (doc_nodes (document st))).
    { apply splice_in_range. subst index. destruct (i =? 0)%Z; lia. }
    rewrite Hsplice.
    assert (Htake : length (take (Z.to_nat index) (doc_nodes (document st)))
                    = Z.to_nat index).
    { apply length_take_le. subst index. destruct (i =? 0)%Z; lia. }
    repeat split.
    + now apply list_lookup_middle.
    + subst index. destruct (Z.eqb_spec i 0) as [-> | Hne].
      * simpl. rewrite drop_0. exact Hat.
      * rewrite lookup_app_l by (rewrite Htake; lia).
        rewrite lookup_take_lt by lia. exact Hat.
    + rewrite length_app. simpl. rewrite Htake, length_drop.
      subst index. destruct (i =? 0)%Z; lia.
    + rewrite Enb. unfold hasFocusIn. simpl. now rewrite Nat.eqb_refl.
Qed.

Lemma enter_on_void_block_witness :
  exists a : Applied,
    handleKeyDown inertSlate noShift enterKey voidThenParagraph
      = Return true (Some a) /\
    applied a =
      [ insertNodeByKey 4 0 (Block 6 "paragraph" false ∅ [Text 5 []]);
        collapseToStartOf (Block 6 "paragraph" false ∅ [Text 5 []]) ] /\
    doc_nodes (document (next a)) !! 0 = Some (Block 6 "paragraph" false ∅ [Text 5 []]) /\
    doc_nodes (document (next a)) !! 1 = Some shortcodeBlock /\
    anchorKey (selection (next a)) = Some 5 /\
    hasFocusIn (selection (next a)) (Block 6 "paragraph" false ∅ [Text 5 []]) = true.
Proof.
  destruct (enter_on_void_block inertSlate noShift enterKey voidThenParagraph
              shortcodeBlock 0)
    as (a & Ha & _ & Hops & Hnew & Hvoid & _ & Hanchor & _ & _ & _ & Hin).
  - reflexivity.
  - vm_compute. reflexivity.
  - reflexivity.
  - vm_compute. reflexivity.
  - lia.
  - vm_compute. reflexivity.
  - exists a. repeat split; assumption.
Defined.


(** C2, Scenario 5 as the specification words it.  In [paragraph, void
    block] with the void block selected, the void block is the second
    child: Enter puts the new paragraph after it, at index 2, and the
    document starts with the old paragraph, not with the new one. *)
Lemma enter_after_second_child_void :
  exists a : Applied,
    handleKeyDown inertSlate noShift enterKey paragraphThenVoid = Return true (Some a) /\
    applied a =
      [ insertNodeByKey 4 2 (Block 6 "paragraph" false ∅ [Text 5 []]);
        collapseToStartOf (Block 6 "paragraph" false ∅ [Text 5 []]) ] /\
    doc_nodes (document (next a)) =
      [ helloParagraph; shortcodeBlock; Block 6 "paragraph" false ∅ [Text 5 []] ] /\
    doc_nodes (document (next a)) !! 0 <> Some (Block 6 "paragraph" false ∅ [Text 5 []]).
Proof.
  eexists. split; [vm_compute; reflexivity | ].
  split; [reflexivity | ]. split; [reflexivity | ]. discriminate.
Qed.

(** ** The schema rule *)

Lemma getBlocksAsArray_block :
  forall n : Node, isBlock n = true -> getBlocksAsArray n <> [].
Proof.
  fix IH 1. intros [k t v d ns | k t v d ns | k cs] Hb; try discriminate.
  simpl. destruct (forallb (fun c => negb (isBlock c)) ns) eqn:E; [discriminate | ].
  clear Hb. induction ns as [|c ns IHns]; simpl in E; [discriminate | ].
  simpl. intros Habs. apply app_eq_nil in Habs as [Hc Hns].
  destruct (isBlock c) eqn:Bc.
  - exact (IH c Bc Hc).
  - simpl in E. exact (IHns E Hns).
Qed.

Lemma getBlocksAsArray_other (n : Node) :
  isBlock n = false -> getBlocksAsArray n = [].
Proof. destruct n; simpl; [discriminate | reflexivity | reflexivity]. Qed.

Lemma getBlocks_empty (doc : Document) :
  getBlocks doc = [] <-> blockChildren doc = [].
Proof.
  destruct doc as [k ns]. unfold getBlocks, blockChildren. simpl.
  induction ns as [|c ns IH]; simpl; [tauto | ].
  destruct (isBlock c) eqn:Bc.
  - split; [ | discriminate].
    intros H. apply app_eq_nil in H as [H _].
    now apply getBlocksAsArray_block in H.
  - rewrite (getBlocksAsArray_other c Bc). simpl. exact IH.
Qed.

Lemma validate_invalid (doc : Document) :
  validate doc = Some tt <-> blockChildren doc = [].
Proof.
  rewrite <- getBlocks_empty. unfold validate.
  destruct (getBlocks doc); simpl; split; congruence.
Qed.

Lemma validate_valid (doc : Document) :
  validate doc = None <-> blockChildren doc <> [].
Proof.
  rewrite <- getBlocks_empty. unfold validate.
  destruct (getBlocks doc); simpl; split; congruence.
Qed.

Lemma normalize_state (slate : Op -> State -> State) (st : State) :
  state (normalize slate (transform st)) =
  {| document :=
       {| doc_key := doc_key (document st);
          doc_nodes := Block (S (keygen st)) "paragraph" false ∅ [Text (keygen st) []]
                         :: doc_nodes (document st) |};
     selection := focusSelection (selection st);
     keygen := S (S (keygen st)) |}.
Proof.
  unfold normalize, chain, transform, perform, insertInDocument. simpl.
  now rewrite Nat.eqb_refl, splice_front.
Qed.

Lemma normalize_operations (slate : Op -> State -> State) (st : State) :
  operations (normalize slate (transform st)) =
  [ insertNodeByKey (doc_key (document st)) 0
      (Block (S (keygen st)) "paragraph" false ∅ [Text (keygen st) []]);
    focus ].
Proof. reflexivity. Qed.

Lemma filter_isBlock_twice (l : list Node) :
  List.filter isBlock (List.filter isBlock l) = List.filter isBlock l.
Proof.
  induction l as [|c l IH]; simpl; [reflexivity | ].
  destruct (isBlock c) eqn:Bc; simpl; [ | exact IH]. now rewrite Bc, IH.
Qed.

Lemma onlyBlocks_blocks (st : State) :
  onlyBlocks (onlyBlocks st) = onlyBlocks st.
Proof. unfold onlyBlocks. simpl. now rewrite filter_isBlock_twice. Qed.

Lemma firstText_is_text :
  forall n t : Node, firstText n = Some t -> exists k cs, t = Text k cs.
Proof.
  fix IH 1. intros [k ty v d ns | k ty v d ns | k cs] t; simpl.
  - induction ns as [|c ns IHns]; [discriminate | ].
    destruct (firstText c) as [t' | ] eqn:Fc.
    + intros Hf. injection Hf as <-. exact (IH c t' Fc).
    + exact IHns.
  - induction ns as [|c ns IHns]; [discriminate | ].
    destruct (firstText c) as [t' | ] eqn:Fc.
    + intros Hf. injection Hf as <-. exact (IH c t' Fc).
    + exact IHns.
  - intros Hf. injection Hf as <-. now exists k, cs.
Qed.

Lemma firstText_below :
  forall n t : Node,
    firstText n = Some t ->
    Nat.eqb (key n) (key t) || hasDescendant (key t) n = true.
Proof.
  fix IH 1. intros [k ty v d ns | k ty v d ns | k cs] t; simpl.
  - intros Hf. apply orb_true_iff. right. revert Hf.
    induction ns as [|c ns IHns]; [discriminate | ].
    destruct (firstText c) as [t' | ] eqn:Fc.
    + intros Hf. injection Hf as <-. simpl. now rewrite (IH c t' Fc).
    + intros Hf. simpl. rewrite (IHns Hf). apply orb_true_r.
  - intros Hf. apply orb_true_iff. right. revert Hf.
    induction ns as [|c ns IHns]; [discriminate | ].
    destruct (firstText c) as [t' | ] eqn:Fc.
    + intros Hf. injection Hf as <-. simpl. now rewrite (IH c t' Fc).
    + intros Hf. simpl. rewrite (IHns Hf). apply orb_true_r.
  - intros Hf. injection Hf as <-. simpl. now rewrite Nat.eqb_refl.
Qed.

Lemma firstTextIn_hasNode (doc : Document) (t : Node) :
  documentFirstText doc = Some t -> hasNode doc (Some (key t)) = true.
Proof.
  destruct doc as [dk ns]. unfold documentFirstText, hasNode. simpl.
  induction ns as [|c ns IHns]; simpl; [discriminate | ].
  destruct (firstText c) as [t' | ] eqn:Fc.
  - intros Hf. injection Hf as <-. now rewrite (firstText_below c t' Fc).
  - intros Hf. rewrite (IHns Hf). apply orb_true_r.
Qed.

Lemma documentFirstText_is_text (doc : Document) (t : Node) :
  documentFirstText doc = Some t -> exists k cs, t = Text k cs.
Proof.
  destruct doc as [dk ns]. unfold documentFirstText. simpl.
  induction ns as [|c ns IHns]; simpl; [discriminate | ].
  destruct (firstText c) as [t' | ] eqn:Fc; [ | exact IHns].
  intros Hf. injection Hf as <-. exact (firstText_is_text c t' Fc).
Qed.

Lemma normalizeSelection_document (st : State) :
  document (normalizeSelection st) = document st.
Proof.
  unfold normalizeSelection.
  destruct (isUnset _ || _ || _); [ | reflexivity].
  now destruct (documentFirstText (document st)).
Qed.

Lemma normalizeSelection_twice (st : State) :
  normalizeSelection (normalizeSelection st) = normalizeSelection st.
Proof.
  destruct (isUnset (selection st) || negb (hasNode (document st) (anchorKey (selection st)))
            || negb (hasNode (document st) (focusKey (selection st)))) eqn:C.
  - destruct (documentFirstText (document st)) as [t | ] eqn:Ft.
    + destruct (documentFirstText_is_text _ _ Ft) as (k & cs & ->).
      pose proof (firstTextIn_hasNode _ _ Ft) as Hk. simpl in Hk.
      assert (E : normalizeSelection st =
                  {| document := document st;
                     selection := collapseSelectionToStartOf (Text k cs) (selection st);
                     keygen := keygen st |})
        by (unfold normalizeSelection; now rewrite C, Ft).
      rewrite E. unfold normalizeSelection. simpl. unfold isUnset. simpl.
      now rewrite Hk.
    + assert (E : normalizeSelection st = st)
        by (unfold normalizeSelection; now rewrite C, Ft).
      now rewrite !E.
  - assert (E : normalizeSelection st = st)
      by (unfold normalizeSelection; now rewrite C).
    now rewrite !E.
Qed.

Lemma enforce_nodes (slate : Op -> State -> State) (st : State) :
  doc_nodes (document (enforce slate st)) =
  match blockChildren (document st) with
  | [] => [Block (S (keygen st)) "paragraph" false ∅ [Text (keygen st) []]]
  | blocks => blocks
  end.
Proof.
  unfold enforce. rewrite normalizeSelection_document. simpl rule_match. cbv iota.
  destruct (blockChildren (document st)) as [|c l] eqn:E.
  - assert (Hv : validate (document (onlyBlocks st)) = Some tt).
    { apply validate_invalid. unfold blockChildren, onlyBlocks. simpl.
      rewrite filter_isBlock_twice. exact E. }
    rewrite Hv, normalize_state. simpl. unfold blockChildren in E. now rewrite E.
  - assert (Hv : validate (document (onlyBlocks st)) = None).
    { apply validate_valid. unfold blockChildren, onlyBlocks. simpl.
      rewrite filter_isBlock_twice. unfold blockChildren in E. now rewrite E. }
    rewrite Hv. simpl. exact E.
Qed.

Lemma filter_isBlock_all (l : list Node) :
  forallb isBlock l = true -> List.filter isBlock l = l.
Proof.
  induction l as [|c l IH]; simpl; [reflexivity | ].
  destruct (isBlock c); simpl; [ | discriminate]. intros H. now rewrite IH.
Qed.

Lemma forallb_filter_isBlock (l : list Node) :
  forallb isBlock (List.filter isBlock l) = true.
Proof.
  induction l as [|c l IH]; simpl; [reflexivity | ].
  destruct (isBlock c) eqn:Bc; simpl; [now rewrite Bc | exact IH].
Qed.

Lemma enforce_all_blocks (slate : Op -> State -> State) (st : State) :
  forallb isBlock (doc_nodes (document (enforce slate st))) = true /\
  doc_nodes (document (enforce slate st)) <> [].
Proof.
  rewrite enforce_nodes. destruct (blockChildren (document st)) eqn:E.
  - split; [reflexivity | discriminate].
  - rewrite <- E. split; [apply forallb_filter_isBlock | ]. rewrite E. discriminate.
Qed.

Lemma enforce_has_block (slate : Op -> State -> State) (st : State) :
  blockChildren (document (enforce slate st)) <> [].
Proof.
  destruct (enforce_all_blocks slate st) as [Hall Hne].
  unfold blockChildren. now rewrite filter_isBlock_all.
Qed.

Lemma onlyBlocks_id (st : State) :
  forallb isBlock (doc_nodes (document st)) = true -> onlyBlocks st = st.
Proof.
  intros H. destruct st as [[dk ns] sel g]. unfold onlyBlocks. simpl in *.
  now rewrite filter_isBlock_all.
Qed.

Lemma enforce_idempotent (slate : Op -> State -> State) (st : State) :
  enforce slate (enforce slate st) = enforce slate st.
Proof.
  destruct (enforce_all_blocks slate st) as [Hall _].
  pose proof (enforce_has_block slate st) as Hb.
  unfold enforce at 1. rewrite (onlyBlocks_id _ Hall).
  simpl rule_match. cbv iota.
  apply validate_valid in Hb. rewrite Hb.
  unfold enforce. apply normalizeSelection_twice.
Qed.

Lemma enforce_selection (slate : Op -> State -> State) (st : State) :
  blockChildren (document st) = [] ->
  let g := keygen st in
  let sel := selection st in
  selection (enforce slate st) =
  if isUnset sel
     || negb (match anchorKey sel with
              | Some k => Nat.eqb (S g) k || Nat.eqb g k
              | None => false
              end)
     || negb (match focusKey sel with
              | Some k => Nat.eqb (S g) k || Nat.eqb g k
              | None => false
              end)
  then cursorAt g 0
  else focusSelection sel.
Proof.
  intros E g sel. unfold enforce. simpl rule_match. cbv iota.
  assert (Hv : validate (document (onlyBlocks st)) = Some tt).
  { apply validate_invalid. unfold blockChildren, onlyBlocks. simpl.
    rewrite filter_isBlock_twice. exact E. }
  rewrite Hv, normalize_state. unfold normalizeSelection, documentFirstText, hasNode.
  cbn -[Nat.eqb]. unfold blockChildren in E. rewrite E. cbn -[Nat.eqb].
  unfold isUnset. cbn -[Nat.eqb]. fold g. fold sel.
  destruct (anchorKey sel) as [ka | ], (focusKey sel) as [kf | ]; cbn -[Nat.eqb];
    try reflexivity.
  rewrite !orb_false_r.
  destruct (Nat.eqb (S g) ka || Nat.eqb g ka), (Nat.eqb (S g) kf || Nat.eqb g kf);
    reflexivity.
Qed.

(** C4. On a document without block children the rule inserts one empty
    paragraph at position 0, which is then the only child of the
    document, and the cursor is there: the selection is focused and each
    of its two ends is at the new paragraph; whenever the keys the
    selection held before were keys in use, below the key counter, it is
    the collapsed selection at the start of the paragraph's text, inside
    the paragraph.  Enforcing the rule a second time changes nothing,
    whatever the document. *)
Theorem normalization_rule (slate : Op -> State -> State) (st : State) :
  (blockChildren (document st) = [] ->
   let paragraph := Block (S (keygen st)) "paragraph" false ∅ [Text (keygen st) []] in
   let after := enforce slate st in
   operations (normalize slate (transform (onlyBlocks st))) =
     [ insertNodeByKey (doc_key (document st)) 0 paragraph; focus ] /\
   doc_nodes (document after) = [paragraph] /\
   blockChildren (document after) = [paragraph] /\
   isFocused (selection after) = true /\
   (exists ka kf,
      anchorKey (selection after) = Some ka /\ focusKey (selection after) = Some kf /\
      (ka = keygen st \/ ka = S (keygen st)) /\
      (kf = keygen st \/ kf = S (keygen st))) /\
   ((forall k, anchorKey (selection st) = Some k \/ focusKey (selection st) = Some k ->
               k < keygen st) ->
    selection after = cursorAt (keygen st) 0 /\
    hasFocusIn (selection after) paragraph = true)) /\
  enforce slate (enforce slate st) = enforce slate st.
Proof.
  split; [ | apply enforce_idempotent].
  intros E paragraph after.
  split; [reflexivity | ].
  assert (Hn : doc_nodes (document after) = [paragraph]).
  { subst after. rewrite enforce_nodes. now rewrite E. }
  split; [exact Hn | ]. split; [unfold blockChildren; now rewrite Hn | ].
  pose proof (enforce_selection slate st E) as Hs. cbv zeta in Hs.
  fold after in Hs.
  assert (Hcursor : hasFocusIn (cursorAt (keygen st) 0) paragraph = true).
  { subst paragraph. unfold hasFocusIn. cbn -[Nat.eqb]. now rewrite Nat.eqb_refl. }
  destruct (isUnset (selection st)
            || negb match anchorKey (selection st) with
                    | Some k => Nat.eqb (S (keygen st)) k || Nat.eqb (keygen st) k
                    | None => false
                    end
            || negb match focusKey (selection st) with
                    | Some k => Nat.eqb (S (keygen st)) k || Nat.eqb (keygen st) k
                    | None => false
                    end) eqn:C; rewrite Hs.
  - split; [reflexivity | ]. split.
    + exists (keygen st), (keygen st). repeat split; auto.
    + intros _. split; [reflexivity | exact Hcursor].
  - apply orb_false_iff in C as [C Cf]. apply orb_false_iff in C as [_ Ca].
    apply negb_false_iff in Ca, Cf.
    destruct (anchorKey (selection st)) as [ka | ] eqn:Ea; [ | discriminate].
    destruct (focusKey (selection st)) as [kf | ] eqn:Ef; [ | discriminate].
    apply orb_true_iff in Ca, Cf.
    rewrite !Nat.eqb_eq in Ca. rewrite !Nat.eqb_eq in Cf.
    split; [reflexivity | ]. split.
    + exists ka, kf. simpl. rewrite Ea, Ef.
      split; [reflexivity | ]. split; [reflexivity | ].
      split; [destruct Ca; auto | destruct Cf; auto].
    + intros Hlt. exfalso. specialize (Hlt ka (or_introl eq_refl)). lia.
Qed.

Lemma normalization_rule_witness :
  doc_nodes (document (enforce inertSlate emptyDocument)) =
    [ Block 2 "paragraph" false ∅ [Text 1 []] ] /\
  selection (enforce inertSlate emptyDocument) = cursorAt 1 0 /\
  hasFocusIn (selection (enforce inertSlate emptyDocument))
    (Block 2 "paragraph" false ∅ [Text 1 []]) = true /\
  enforce inertSlate (enforce inertSlate emptyDocument) =
    enforce inertSlate emptyDocument.
Proof.
  destruct (normalization_rule inertSlate emptyDocument) as [H Hidem].
  destruct (H eq_refl) as (_ & Hnodes & _ & _ & _ & Hcursor).
  destruct Hcursor as [Hsel Hfocus]; [intros k [E | E]; discriminate | ].
  split; [exact Hnodes | ]. split; [exact Hsel | ].
  split; [exact Hfocus | exact Hidem].
Defined.

(** ** The initial state and the reachable states *)












(** ** The soft-break and backspace plugins *)

Lemma unwrap_operations (slate : Op -> State -> State) (l : list string) :
  forall t : Transform,
    operations
      (fold_left (fun acc blockType => chain slate acc (unwrapBlock blockType)) l t)
    = operations t ++ List.map unwrapBlock l.
Proof.
  induction l as [|x l IH]; intros t; simpl.
  - now rewrite app_nil_r.
  - rewrite IH. simpl. now rewrite <- app_assoc.
Qed.

(** ** The library at the cursor *)





Section Search.
Variable k : Key.





End Search.




Section Edit.
Variable k : Key.
Variable news : Node -> option (list Node).
Variable b : Node.
Variable ns : list Node.
Hypothesis Hnews : news b = Some ns.



End Edit.
























(** ** toggleMark twice *)

Lemma selected_forall (P : Character -> bool) (from to : nat)
    (cs : list Character) :
  forallb P (selectedText from to cs) = true <->
  forall i c, cs !! i = Some c -> inSelection from to i = true -> P c = true.
Proof.
  rewrite forallb_forall. unfold selectedText, inSelection. split.
  - intros H i c Hi Hsel. apply andb_true_iff in Hsel as [Hl Hr].
    apply Nat.leb_le in Hl. apply Nat.ltb_lt in Hr.
    apply H, list_elem_of_In, list_elem_of_lookup. exists (i - from).
    rewrite lookup_take_lt by lia. rewrite lookup_drop.
    now replace (from + (i - from)) with i by lia.
  - intros H c Hc. apply list_elem_of_In, list_elem_of_lookup in Hc as [j Hj].
    apply lookup_take_Some in Hj as [Hj Hlt]. rewrite lookup_drop in Hj.
    apply (H _ _ Hj). apply andb_true_iff. split.
    + apply Nat.leb_le. lia.
    + apply Nat.ltb_lt. lia.
Qed.

Lemma onSelectedText_lookup (f : Character -> Character) (from to : nat)
    (cs : list Character) (i : nat) :
  onSelectedText f from to cs !! i =
  (fun c => if inSelection from to i then f c else c) <$> cs !! i.
Proof. unfold onSelectedText. apply list_lookup_imap. Qed.

Lemma onSelectedText_twice (f g : Character -> Character) (from to : nat)
    (cs : list Character) :
  (forall i c, cs !! i = Some c -> inSelection from to i = true -> g (f c) = c) ->
  onSelectedText g from to (onSelectedText f from to cs) = cs.
Proof.
  intros H. apply list_eq. intros i. rewrite !onSelectedText_lookup.
  destruct (cs !! i) as [c | ] eqn:Hi; simpl; [ | reflexivity].
  destruct (inSelection from to i) eqn:Hsel; [ | reflexivity].
  now rewrite (H i c Hi Hsel).
Qed.

Lemma hasMark_addMark (m : string) (c : Character) : hasMark m (addMark m c) = true.
Proof.
  unfold hasMark, addMark. simpl. apply bool_decide_eq_true.
  apply elem_of_union_l, elem_of_singleton. reflexivity.
Qed.

Lemma hasMark_removeMark (m : string) (c : Character) :
  hasMark m (removeMark m c) = false.
Proof.
  unfold hasMark, removeMark. simpl. apply bool_decide_eq_false.
  rewrite elem_of_difference, elem_of_singleton. tauto.
Qed.

Lemma add_after_remove (m : string) (c : Character) :
  hasMark m c = true -> addMark m (removeMark m c) = c.
Proof.
  destruct c as [a ms]. unfold hasMark, addMark, removeMark. simpl.
  intros H. apply bool_decide_eq_true in H. f_equal.
  apply set_eq. intros x.
  rewrite elem_of_union, elem_of_difference, elem_of_singleton.
  destruct (decide (x = m)) as [-> | ]; tauto.
Qed.

Lemma remove_after_add (m : string) (c : Character) :
  hasMark m c = false -> removeMark m (addMark m c) = c.
Proof.
  destruct c as [a ms]. unfold hasMark, addMark, removeMark. simpl.
  intros H. apply bool_decide_eq_false in H. f_equal.
  apply set_eq. intros x.
  rewrite elem_of_difference, elem_of_union, elem_of_singleton.
  destruct (decide (x = m)) as [-> | ]; tauto.
Qed.

Lemma selected_after (f : Character -> Character) (P : Character -> bool)
    (from to : nat) (cs : list Character) :
  (forall c, P (f c) = true) ->
  forallb P (selectedText from to (onSelectedText f from to cs)) = true.
Proof.
  intros H. apply selected_forall. intros i c Hi Hsel.
  rewrite onSelectedText_lookup in Hi.
  destruct (cs !! i) as [c0 | ]; simpl in Hi; [ | discriminate].
  rewrite Hsel in Hi. injection Hi as <-. apply H.
Qed.

(** When every selected character carries the mark, toggling removes it
    from all of them; when one lacks it, toggling adds it to all. *)
Lemma toggleMarkOn_effect (m : string) (from to : nat) (cs : list Character) :
  (forallb (hasMark m) (selectedText from to cs) = true ->
   forallb (fun c => negb (hasMark m c))
           (selectedText from to (toggleMarkOn m from to cs)) = true) /\
  (forallb (hasMark m) (selectedText from to cs) = false ->
   forallb (hasMark m) (selectedText from to (toggleMarkOn m from to cs)) = true).
Proof.
  unfold toggleMarkOn. split; intros ->.
  - apply selected_after. intros c. now rewrite hasMark_removeMark.
  - apply selected_after. intros c. apply hasMark_addMark.
Qed.

Lemma toggle_twice_restores (m : string) (from to : nat) (cs : list Character) :
  forallb (hasMark m) (selectedText from to cs) = true \/
  forallb (fun c => negb (hasMark m c)) (selectedText from to cs) = true ->
  toggleMarkOn m from to (toggleMarkOn m from to cs) = cs.
Proof.
  intros Huni.
  assert (Hsel : forall i c, cs !! i = Some c -> inSelection from to i = true ->
                 hasMark m c = forallb (hasMark m) (selectedText from to cs)).
  { intros i c Hi Hs. destruct Huni as [Hall | Hnone].
    - rewrite Hall. exact (proj1 (selected_forall _ _ _ _) Hall i c Hi Hs).
    - pose proof (proj1 (selected_forall _ _ _ _) Hnone i c Hi Hs) as Hc.
      apply negb_true_iff in Hc. rewrite Hc. symmetry.
      apply not_true_is_false. intros Hall.
      pose proof (proj1 (selected_forall _ _ _ _) Hall i c Hi Hs). congruence. }
  pose proof (toggleMarkOn_effect m from to cs) as [Hrem Hadd].
  unfold toggleMarkOn at 1.
  destruct (forallb (hasMark m) (selectedText from to cs)) eqn:T1.
  - specialize (Hrem eq_refl). unfold toggleMarkOn in *. rewrite T1 in *.
    destruct (forallb (hasMark m)
                (selectedText from to (onSelectedText (removeMark m) from to cs)))
      eqn:T2.
    + apply onSelectedText_twice. intros i c Hi Hs. exfalso.
      pose proof (proj1 (selected_forall (hasMark m) from to
                           (onSelectedText (removeMark m) from to cs))
                        T2 i (removeMark m c)) as H2.
      rewrite onSelectedText_lookup, Hi in H2. simpl in H2. rewrite Hs in H2.
      specialize (H2 eq_refl eq_refl). rewrite hasMark_removeMark in H2.
      discriminate.
    + apply onSelectedText_twice. intros i c Hi Hs.
      apply add_after_remove. now rewrite (Hsel i c Hi Hs).
  - specialize (Hadd eq_refl). unfold toggleMarkOn in *. rewrite T1 in *.
    rewrite Hadd. apply onSelectedText_twice. intros i c Hi Hs.
    apply remove_after_add. now rewrite (Hsel i c Hi Hs).
Qed.

Lemma toggleMarkOn_outside (m : string) (from to : nat) (cs : list Character)
    (i : nat) :
  inSelection from to i = false ->
  toggleMarkOn m from to cs !! i = cs !! i.
Proof.
  intros Hout. unfold toggleMarkOn.
  destruct (forallb (hasMark m) (selectedText from to cs));
    rewrite onSelectedText_lookup, Hout; now destruct (cs !! i).
Qed.

(** C8, on a uniform selection.  With toggleMark as the specification
    words it (the mark is removed from all of the selected text when all
    of it carries the mark, added to all of it when some of it lacks the
    mark, and the text outside the selection is left alone), toggling a
    mark twice over the same selection gives back the original
    characters, marks included, whenever all of the selected text carries
    the mark or none of it does. *)
Theorem toggle_twice_uniform (m : string) (from to : nat) (cs : list Character) :
  (forallb (hasMark m) (selectedText from to cs) = true \/
   forallb (fun c => negb (hasMark m c)) (selectedText from to cs) = true ->
   toggleMarkOn m from to (toggleMarkOn m from to cs) = cs) /\
  (forallb (hasMark m) (selectedText from to cs) = true ->
   forallb (fun c => negb (hasMark m c))
           (selectedText from to (toggleMarkOn m from to cs)) = true) /\
  (forallb (hasMark m) (selectedText from to cs) = false ->
   forallb (hasMark m) (selectedText from to (toggleMarkOn m from to cs)) = true) /\
  (forall i, inSelection from to i = false ->
             toggleMarkOn m from to cs !! i = cs !! i).
Proof.
  split; [apply toggle_twice_restores | ].
  split; [apply toggleMarkOn_effect | ].
  split; [apply toggleMarkOn_effect | ].
  intros i. apply toggleMarkOn_outside.
Qed.

Lemma toggle_twice_uniform_witness :
  forallb (hasMark "bold") (selectedText 0 1 boldThenPlain) = true /\
  toggleMarkOn "bold" 0 1 (toggleMarkOn "bold" 0 1 boldThenPlain) = boldThenPlain.
Proof.
  assert (H : forallb (hasMark "bold") (selectedText 0 1 boldThenPlain) = true)
    by (vm_compute; reflexivity).
  split; [exact H | ].
  apply (proj1 (toggle_twice_uniform "bold" 0 1 boldThenPlain)). left. exact H.
Defined.


(** C8, as stated.  On "ab" with only "a" bold, both characters selected,
    the first toggle makes both bold and the second leaves neither bold:
    the original marks are not restored. *)
Lemma toggle_twice_mixed :
  toggleMarkOn "bold" 0 2 boldThenPlain =
    [ {| char_text := "a"; char_marks := {["bold"]} ∪ {["bold"]} |};
      {| char_text := "b"; char_marks := {["bold"]} ∪ ∅ |} ] /\
  List.map (hasMark "bold")
           (toggleMarkOn "bold" 0 2 (toggleMarkOn "bold" 0 2 boldThenPlain))
    = [false; false] /\
  List.map (hasMark "bold") boldThenPlain = [true; false] /\
  toggleMarkOn "bold" 0 2 (toggleMarkOn "bold" 0 2 boldThenPlain) <> boldThenPlain.
Proof.
  split; [vm_compute; reflexivity | ].
  assert (H : List.map (hasMark "bold")
                (toggleMarkOn "bold" 0 2 (toggleMarkOn "bold" 0 2 boldThenPlain))
              = [false; false]) by (vm_compute; reflexivity).
  split; [exact H | ]. split; [vm_compute; reflexivity | ].
  intros E. rewrite E in H. vm_compute in H. discriminate.
Qed.

(** * Further properties of the code *)

(** ** processUrl and handleLink *)

Lemma startsWith_append (p s : string) : startsWith p (p +:+ s) = true.
Proof. apply startsWith_spec. now exists s. Qed.

Lemma processUrl_absolute (url : string) :
  test_anchored absolute_re (processUrl url) = true.
Proof.
  unfold processUrl.
  destruct (test_anchored absolute_re url) eqn:A; [exact A | ].
  destruct (test_anchored domain_re url); rewrite test_absolute_re.
  - rewrite (startsWith_append "https://" url). now rewrite orb_true_r.
  - rewrite (startsWith_append "/" url). apply orb_true_r.
Qed.

(** X1. Whatever the input, the result of [processUrl] begins with
    "http://", "https://", "mailto:" or "/"; processing a processed URL
    therefore changes nothing. *)
Theorem processUrl_idempotent (url : string) :
  (startsWith "http://" (processUrl url) || startsWith "https://" (processUrl url)
   || startsWith "mailto:" (processUrl url) || startsWith "/" (processUrl url)) = true /\
  processUrl (processUrl url) = processUrl url.
Proof.
  split.
  - rewrite <- test_absolute_re. apply processUrl_absolute.
  - unfold processUrl at 1. now rewrite processUrl_absolute.
Qed.

(** X2. [handleLink] asks for a URL exactly when the link mark is not
    active.  The [href] it passes on is null when the mark is active, when
    the dialog is dismissed and when the answer is empty; in every other
    case it is the answer run through [processUrl], which begins with
    "http://", "https://", "mailto:" or "/". *)
Theorem handleLink_href (active : bool) (answer : option string) :
  link_prompted (handleLink active answer) = negb active /\
  (link_href (handleLink active answer) = None <->
   active = true \/ answer = None \/ answer = Some "") /\
  (forall href, link_href (handleLink active answer) = Some href ->
     exists url, answer = Some url /\ href = processUrl url /\
       (startsWith "http://" href || startsWith "https://" href
        || startsWith "mailto:" href || startsWith "/" href) = true).
Proof.
  split; [reflexivity | ]. split.
  - destruct active; simpl; [tauto | ].
    destruct answer as [[|a u] | ]; simpl; split; try tauto; try discriminate.
    intros [? | [? | ?]]; discriminate.
  - intros href. destruct active; [discriminate | ].
    destruct answer as [[|a u] | ]; try discriminate.
    unfold handleLink. cbn [link_href negb].
    intros H. injection H as <-. exists (String a u).
    split; [reflexivity | ]. split; [reflexivity | ].
    rewrite <- test_absolute_re. apply processUrl_absolute.
Qed.

(** ** createSerializer on any list of plugins *)

Lemma createSerializer_untouched {S : Type} (write : string -> S -> S)
    (plugins : list Plugin) :
  forall (nodes : gmap string (NodeSerializer S)) (kind : string),
    ~ In kind (List.map pluginKind plugins) ->
    createSerializer write nodes plugins !! kind = nodes !! kind.
Proof.
  induction plugins as [|q plugins IH]; intros nodes kind Hk; [reflexivity | ].
  rewrite createSerializer_cons, IH.
  - apply lookup_insert_ne. intros E. apply Hk. left. exact E.
  - intros Hin. apply Hk. right. exact Hin.
Qed.

(** X3. [createSerializer] only touches the entries named after its
    plugins: the serializer of every other node kind is the one of the
    default table, and a kind the table does not know stays unknown. *)
Theorem createSerializer_keeps_other_kinds {S : Type} (write : string -> S -> S)
    (nodes : gmap string (NodeSerializer S)) (plugins : list Plugin)
    (kind : string) :
  (forall p, In p plugins -> kind <> "plugin_" +:+ plugin_id p) ->
  createSerializer write nodes plugins !! kind = nodes !! kind.
Proof.
  intros H. apply createSerializer_untouched. intros Hin.
  apply in_map_iff in Hin as (p & E & Hp). exact (H p Hp (eq_sym E)).
Qed.

Lemma createSerializer_keeps_other_kinds_witness :
  createSerializer appendWrite
    {[ "paragraph" := fun (out : string) (_ : SerializedNode) => out ]}
    [youtube; gist] !! "paragraph"
  = Some (fun (out : string) (_ : SerializedNode) => out) /\
  createSerializer appendWrite
    {[ "paragraph" := fun (out : string) (_ : SerializedNode) => out ]}
    [youtube; gist] !! "heading" = None.
Proof.
  split.
  - rewrite (createSerializer_keeps_other_kinds appendWrite _ [youtube; gist] "paragraph").
    + reflexivity.
    + intros p [<- | [<- | []]]; discriminate.
  - rewrite (createSerializer_keeps_other_kinds appendWrite _ [youtube; gist] "heading").
    + reflexivity.
    + intros p [<- | [<- | []]]; discriminate.
Defined.

(** X4. When several plugins share an id, the node kind of that id is
    serialized by the last of them in the list: the earlier ones are
    overwritten. *)
Theorem createSerializer_last_wins {S : Type} (write : string -> S -> S)
    (nodes : gmap string (NodeSerializer S)) (before after : list Plugin)
    (p : Plugin) (state : S) (node : SerializedNode) :
  ~ In (plugin_id p) (List.map plugin_id after) ->
  exists f : NodeSerializer S,
    createSerializer write nodes (before ++ p :: after)
      !! ("plugin_" +:+ plugin_id p) = Some f /\
    f state node =
      write (plugin_toBlock p (node_attrs node)
               +:+ String newline (String newline "")) state.
Proof.
  intros H. exists (pluginSerializer write p). split.
  - now apply createSerializer_last.
  - reflexivity.
Qed.

Lemma createSerializer_last_wins_witness :
  exists f : NodeSerializer string,
    createSerializer appendWrite ∅ [gist; youtube; gistAgain] !! "plugin_gist" = Some f /\
    f "" {| node_kind := "plugin_gist"; node_attrs := {[ "id" := "42" ]} |} =
      "[gist:42]" +:+ String newline (String newline "").
Proof.
  destruct (createSerializer_last_wins appendWrite ∅ [gist; youtube] [] gistAgain ""
              {| node_kind := "plugin_gist"; node_attrs := {[ "id" := "42" ]} |})
    as (f & Hf & Hw).
  - intros [].
  - exists f. split; [exact Hf | ]. rewrite Hw. vm_compute. reflexivity.
Defined.

Lemma NoDup_ids_unique (plugins : list Plugin) (p q : Plugin) :
  List.NoDup (List.map plugin_id plugins) ->
  In p plugins -> In q plugins -> plugin_id p = plugin_id q -> p = q.
Proof.
  induction plugins as [|x l IH]; simpl; intros ND Hp Hq E; [tauto | ].
  apply List.NoDup_cons_iff in ND as [Hx ND].
  destruct Hp as [-> | Hp], Hq as [-> | Hq]; auto.
  - exfalso. apply Hx. rewrite E. now apply in_map.
  - exfalso. apply Hx. rewrite <- E. now apply in_map.
Qed.

(** X5. For plugins with distinct ids the order in which they are
    registered does not matter: any rearrangement of the list gives the
    same table. *)
Theorem createSerializer_order_irrelevant {S : Type} (write : string -> S -> S)
    (nodes : gmap string (NodeSerializer S)) (plugins plugins' : list Plugin) :
  List.NoDup (List.map plugin_id plugins) ->
  Permutation plugins plugins' ->
  createSerializer write nodes plugins = createSerializer write nodes plugins'.
Proof.
  intros ND Hperm.
  assert (ND' : List.NoDup (List.map plugin_id plugins')).
  { eapply Permutation_NoDup; [ | exact ND]. now apply Permutation_map. }
  apply map_eq. intros kind.
  destruct (in_dec string_dec kind (List.map pluginKind plugins)) as [Hin | Hout].
  - apply in_map_iff in Hin as (p & <- & Hp). unfold pluginKind.
    rewrite (createSerializer_registered write plugins nodes p ND Hp).
    symmetry. apply createSerializer_registered; [exact ND' | ].
    eapply Permutation_in; eauto.
  - rewrite createSerializer_untouched by exact Hout.
    rewrite createSerializer_untouched; [reflexivity | ].
    intros Hin. apply Hout. eapply Permutation_in; [ | exact Hin].
    apply Permutation_map. now symmetry.
Qed.

Lemma createSerializer_order_irrelevant_witness :
  createSerializer appendWrite ∅ [youtube; gist]
  = createSerializer appendWrite ∅ [gist; youtube].
Proof.
  apply createSerializer_order_irrelevant.
  - repeat constructor; simpl; intuition discriminate.
  - apply perm_swap.
Defined.

(** ** schemaWithPlugins *)

Lemma pluginAttrs_fold (names : list string) :
  forall (attrs : gmap string AttrSpec) (n : string),
    n <> "__proto__" ->
    foldl (fun attrs name =>
             if String.eqb name "__proto__" then attrs
             else <[ name := {| attr_default := None |} ]> attrs)
          attrs names !! n
    = if in_dec string_dec n names then Some {| attr_default := None |}
      else attrs !! n.
Proof.
  induction names as [|x names IH]; intros attrs n Hn; simpl; [reflexivity | ].
  rewrite IH by exact Hn. destruct (in_dec string_dec n names) as [Hin | Hout].
  - destruct (string_dec x n); [reflexivity | ].
    destruct (in_dec string_dec n names); tauto.
  - destruct (string_dec x n) as [-> | Hne].
    + destruct (String.eqb_spec n "__proto__") as [E | _]; [contradiction | ].
      apply lookup_insert_eq.
    + destruct (in_dec string_dec n names); [tauto | ].
      destruct (String.eqb x "__proto__"); [reflexivity | ].
      now apply lookup_insert_ne.
Qed.

Lemma pluginAttrs_proto (names : list string) :
  forall attrs : gmap string AttrSpec,
    foldl (fun attrs name =>
             if String.eqb name "__proto__" then attrs
             else <[ name := {| attr_default := None |} ]> attrs)
          attrs names !! "__proto__"
    = attrs !! "__proto__".
Proof.
  induction names as [|x names IH]; intros attrs; simpl; [reflexivity | ].
  rewrite IH. destruct (String.eqb_spec x "__proto__") as [_ | Hne];
    [reflexivity | now apply lookup_insert_ne].
Qed.

(** X6. The node spec built for a plugin declares, as properties of its
    [attrs] object, one attribute for each name among the plugin's fields
    other than __proto__, with default null, and no other attribute; a
    field name that occurs twice gives one attribute.  A field named
    __proto__ declares no attribute: the assignment goes to the prototype
    of the object. *)
Theorem plugin_attrs_are_fields (stringify : gmap string string -> string)
    (parse : string -> gmap string string) (plugin : Plugin) (n : string) :
  (In n (plugin_fields plugin) -> n <> "__proto__" ->
   spec_attrs (pluginNodeSpec stringify parse plugin) !! n
   = Some {| attr_default := None |}) /\
  (~ In n (plugin_fields plugin) ->
   spec_attrs (pluginNodeSpec stringify parse plugin) !! n = None) /\
  spec_attrs (pluginNodeSpec stringify parse plugin) !! "__proto__" = None.
Proof.
  simpl. unfold pluginAttrs. split; [ | split].
  - intros Hin Hn. rewrite pluginAttrs_fold by exact Hn.
    destruct (in_dec string_dec n (plugin_fields plugin)); tauto.
  - intros Hout. destruct (string_dec n "__proto__") as [-> | Hn].
    + now rewrite pluginAttrs_proto.
    + rewrite pluginAttrs_fold by exact Hn.
      destruct (in_dec string_dec n (plugin_fields plugin)); tauto.
  - now rewrite pluginAttrs_proto.
Qed.

Lemma plugin_attrs_are_fields_witness :
  spec_attrs (pluginNodeSpec idOnly fromId gistAgain) !! "file"
  = Some {| attr_default := None |} /\
  spec_attrs (pluginNodeSpec idOnly fromId gistAgain) !! "url" = None.
Proof.
  split.
  - apply (proj1 (plugin_attrs_are_fields idOnly fromId gistAgain "file")).
    + right. left. reflexivity.
    + discriminate.
  - apply (proj1 (proj2 (plugin_attrs_are_fields idOnly fromId gistAgain "url"))).
    intros [H | [H | []]]; discriminate.
Defined.

Lemma addToEnd_fresh {V : Type} (k : string) (v : V) (m : list (string * V)) :
  ~ In k (List.map fst m) -> addToEnd k v m = m ++ [(k, v)].
Proof.
  intros H. unfold addToEnd. f_equal.
  induction m as [|[k' v'] m IH]; simpl in *; [reflexivity | ].
  destruct (String.eqb_spec k' k) as [-> | Hne]; simpl; [tauto | ].
  f_equal. apply IH. tauto.
Qed.

Lemma addToEnd_names {V : Type} (k : string) (v : V) (m : list (string * V))
    (n : string) :
  In n (List.map fst (addToEnd k v m)) <-> n = k \/ In n (List.map fst m).
Proof.
  unfold addToEnd. rewrite List.map_app, in_app_iff. simpl.
  induction m as [|[k' v'] m IH]; simpl.
  - split; [intros [[] | [<- | []]]; now left | intros [-> | []]; right; now left].
  - destruct (String.eqb_spec k' k) as [-> | Hne]; simpl.
    + rewrite IH. split; [tauto | ]. intros [? | [<- | ?]]; tauto.
    + split.
      * intros [[<- | H] | H]; [tauto | | ].
        -- destruct (proj1 IH (or_introl H)); tauto.
        -- destruct (proj1 IH (or_intror H)); tauto.
      * intros [-> | [<- | H]].
        -- right. now left.
        -- left. now left.
        -- destruct (proj2 IH (or_intror H)); tauto.
Qed.

Lemma addToEnd_NoDup {V : Type} (k : string) (v : V) (m : list (string * V)) :
  List.NoDup (List.map fst m) -> List.NoDup (List.map fst (addToEnd k v m)).
Proof.
  intros ND. unfold addToEnd. rewrite List.map_app. simpl.
  assert (Hf : forall l : list (string * V),
             List.NoDup (List.map fst l) ->
             List.NoDup (List.map fst
                (List.filter (fun e => negb (String.eqb (fst e) k)) l)) /\
             forall n, In n (List.map fst
                (List.filter (fun e => negb (String.eqb (fst e) k)) l)) ->
                       In n (List.map fst l) /\ n <> k).
  { induction l as [|[k' v'] l IH]; simpl; intros Hl.
    - split; [constructor | tauto].
    - apply List.NoDup_cons_iff in Hl as [Hk' Hl].
      destruct (IH Hl) as [IH1 IH2].
      destruct (String.eqb_spec k' k) as [-> | Hne]; simpl.
      + split; [exact IH1 | ]. intros n Hn. destruct (IH2 n Hn). tauto.
      + split.
        * constructor; [ | exact IH1]. intros Hin. destruct (IH2 _ Hin). tauto.
        * intros n [<- | Hn]; [tauto | ]. destruct (IH2 n Hn). tauto. }
  destruct (Hf m ND) as [H1 H2].
  apply List.NoDup_app.
  - exact H1.
  - repeat constructor. intros [].
  - intros n Hn [E | []]. destruct (H2 n Hn). congruence.
Qed.

Lemma schemaWithPlugins_cons {B M : Type} (stringify : gmap string string -> string)
    (parse : string -> gmap string string) (schema : Schema B M)
    (q : Plugin) (plugins : list Plugin) :
  schemaWithPlugins stringify parse schema (q :: plugins) =
  schemaWithPlugins stringify parse
    {| nodeSpec := addToEnd (pluginKind q) (inr (pluginNodeSpec stringify parse q))
                            (nodeSpec schema);
       markSpec := markSpec schema |} plugins.
Proof. reflexivity. Qed.

(** X7. When the plugins have distinct ids and the schema has no node
    named after one of them, [schemaWithPlugins] keeps the schema's node
    specs in their order and appends one spec per plugin, in the order of
    the plugins; the mark specs are the schema's own. *)
Theorem schemaWithPlugins_appends {B M : Type}
    (stringify : gmap string string -> string)
    (parse : string -> gmap string string)
    (plugins : list Plugin) :
  forall schema : Schema B M,
    List.NoDup (List.map pluginKind plugins) ->
    (forall p, In p plugins -> ~ In (pluginKind p) (List.map fst (nodeSpec schema))) ->
    nodeSpec (schemaWithPlugins stringify parse schema plugins) =
      nodeSpec schema
      ++ List.map (fun p => (pluginKind p, inr (pluginNodeSpec stringify parse p)))
                  plugins /\
    markSpec (schemaWithPlugins stringify parse schema plugins) = markSpec schema.
Proof.
  induction plugins as [|q plugins IH]; intros schema ND Hfresh.
  - split; [simpl; now rewrite app_nil_r | reflexivity].
  - simpl in ND. apply List.NoDup_cons_iff in ND as [Hq ND].
    rewrite schemaWithPlugins_cons.
    destruct (IH {| nodeSpec := addToEnd (pluginKind q)
                                  (inr (pluginNodeSpec stringify parse q))
                                  (nodeSpec schema);
                    markSpec := markSpec schema |} ND) as [Hn Hm].
    + intros p Hp Hin. simpl in Hin. apply addToEnd_names in Hin as [E | Hin].
      * apply Hq. rewrite <- E. now apply in_map.
      * apply (Hfresh p); [now right | exact Hin].
    + split; [ | exact Hm]. rewrite Hn. simpl.
      rewrite addToEnd_fresh by (apply Hfresh; now left).
      now rewrite <- app_assoc.
Qed.

Lemma schemaWithPlugins_appends_witness :
  List.map fst (nodeSpec (schemaWithPlugins idOnly fromId baseSchema [youtube; gist]))
  = ["doc"; "paragraph"; "plugin_youtube"; "plugin_gist"] /\
  markSpec (schemaWithPlugins idOnly fromId baseSchema [youtube; gist]) = "marks".
Proof.
  destruct (schemaWithPlugins_appends idOnly fromId [youtube; gist] baseSchema)
    as [Hn Hm].
  - repeat constructor; simpl; intuition discriminate.
  - intros p [<- | [<- | []]] [H | [H | []]]; discriminate.
  - split; [ | exact Hm]. rewrite Hn. reflexivity.
Defined.

Lemma schemaWithPlugins_names {B M : Type}
    (stringify : gmap string string -> string)
    (parse : string -> gmap string string) (plugins : list Plugin) :
  forall (schema : Schema B M) (n : string),
    In n (List.map fst (nodeSpec (schemaWithPlugins stringify parse schema plugins)))
    <-> In n (List.map fst (nodeSpec schema)) \/ In n (List.map pluginKind plugins).
Proof.
  induction plugins as [|q plugins IH]; intros schema n.
  - simpl. tauto.
  - rewrite schemaWithPlugins_cons, IH. simpl. rewrite addToEnd_names.
    split; [intros [[-> | H] | H] | intros [H | [<- | H]]]; tauto.
Qed.

Lemma schemaWithPlugins_NoDup {B M : Type}
    (stringify : gmap string string -> string)
    (parse : string -> gmap string string) (plugins : list Plugin) :
  forall schema : Schema B M,
    List.NoDup (List.map fst (nodeSpec schema)) ->
    List.NoDup (List.map fst (nodeSpec (schemaWithPlugins stringify parse schema plugins))).
Proof.
  induction plugins as [|q plugins IH]; intros schema ND; [exact ND | ].
  rewrite schemaWithPlugins_cons. apply IH. simpl. now apply addToEnd_NoDup.
Qed.

(** X8. Whatever the plugins, ids repeated or not, and whatever the names
    already in the schema: the node names of the extended schema are the
    schema's names together with one name plugin_<id> per plugin id, and
    no name occurs twice if none did before. *)
Theorem schemaWithPlugins_node_names {B M : Type}
    (stringify : gmap string string -> string)
    (parse : string -> gmap string string)
    (schema : Schema B M) (plugins : list Plugin) :
  List.NoDup (List.map fst (nodeSpec schema)) ->
  List.NoDup (List.map fst (nodeSpec (schemaWithPlugins stringify parse schema plugins))) /\
  forall n : string,
    In n (List.map fst (nodeSpec (schemaWithPlugins stringify parse schema plugins)))
    <-> In n (List.map fst (nodeSpec schema)) \/
        exists p, In p plugins /\ n = "plugin_" +:+ plugin_id p.
Proof.
  intros ND. split; [now apply schemaWithPlugins_NoDup | ].
  intros n. rewrite schemaWithPlugins_names. split.
  - intros [H | H]; [now left | right].
    apply in_map_iff in H as (p & E & Hp). exists p. split; [exact Hp | ].
    now rewrite <- E.
  - intros [H | (p & Hp & ->)]; [now left | right].
    apply in_map_iff. exists p. split; [reflexivity | exact Hp].
Qed.

Lemma schemaWithPlugins_node_names_witness :
  List.map fst (nodeSpec (schemaWithPlugins idOnly fromId baseSchema
                            [gist; youtube; gistAgain]))
  = ["doc"; "paragraph"; "plugin_youtube"; "plugin_gist"] /\
  List.NoDup (List.map fst (nodeSpec (schemaWithPlugins idOnly fromId baseSchema
                                        [gist; youtube; gistAgain]))).
Proof.
  split; [reflexivity | ].
  apply (schemaWithPlugins_node_names idOnly fromId baseSchema [gist; youtube; gistAgain]).
  repeat constructor; simpl; intuition discriminate.
Defined.

Lemma createSerializer_some {S : Type} (write : string -> S -> S)
    (plugins : list Plugin) :
  forall (nodes : gmap string (NodeSerializer S)) (p : Plugin),
    In p plugins ->
    exists q, In q plugins /\ plugin_id q = plugin_id p /\
      createSerializer write nodes plugins !! ("plugin_" +:+ plugin_id p)
      = Some (pluginSerializer write q).
Proof.
  induction plugins as [|x plugins IH]; intros nodes p Hp; [destruct Hp | ].
  rewrite createSerializer_cons.
  destruct (in_dec string_dec (plugin_id p) (List.map plugin_id plugins))
    as [Hin | Hout].
  - apply in_map_iff in Hin as (p' & E & Hp').
    destruct (IH (<[ "plugin_" +:+ plugin_id x := pluginSerializer write x ]> nodes)
                 p' Hp') as (q & Hq & Eq & Hl).
    exists q. split; [now right | ]. split; [congruence | ].
    rewrite <- E. exact Hl.
  - rewrite createSerializer_other by exact Hout.
    destruct Hp as [-> | Hp].
    + exists p. split; [now left | ]. split; [reflexivity | apply lookup_insert_eq].
    + exfalso. apply Hout. now apply in_map.
Qed.

(** X9. The two extensions agree on the node kinds: every node name that
    [schemaWithPlugins] adds to a schema has an entry in the table that
    [createSerializer] builds from the same plugins, and that entry is
    the serializer of a plugin of that id. *)
Theorem added_nodes_have_serializers {B M S : Type}
    (stringify : gmap string string -> string)
    (parse : string -> gmap string string) (write : string -> S -> S)
    (schema : Schema B M) (nodes : gmap string (NodeSerializer S))
    (plugins : list Plugin) (n : string) :
  In n (List.map fst (nodeSpec (schemaWithPlugins stringify parse schema plugins))) ->
  ~ In n (List.map fst (nodeSpec schema)) ->
  exists q, In q plugins /\ n = "plugin_" +:+ plugin_id q /\
    createSerializer write nodes plugins !! n = Some (pluginSerializer write q).
Proof.
  intros Hin Hnew. apply schemaWithPlugins_names in Hin as [H | H]; [tauto | ].
  apply in_map_iff in H as (p & <- & Hp).
  destruct (createSerializer_some write plugins nodes p Hp) as (q & Hq & E & Hl).
  exists q. split; [exact Hq | ]. unfold pluginKind. rewrite E.
  split; [reflexivity | exact Hl].
Qed.

Lemma added_nodes_have_serializers_witness :
  exists q, In q [youtube; gist] /\ "plugin_gist" = "plugin_" +:+ plugin_id q /\
    createSerializer appendWrite ∅ [youtube; gist] !! "plugin_gist"
    = Some (pluginSerializer appendWrite q).
Proof.
  apply (added_nodes_have_serializers idOnly fromId appendWrite baseSchema ∅
           [youtube; gist] "plugin_gist").
  - vm_compute. tauto.
  - intros [H | [H | []]]; discriminate.
Defined.

(** ** handleKeyDown on every key *)

Lemma marks_keys (k m : string) :
  marks !! k = Some m -> In k ["b"; "i"; "u"; "s"; "`"].
Proof.
  intros H. unfold marks in H. apply elem_of_list_to_map_2 in H.
  apply list_elem_of_In in H. simpl in H.
  destruct H as [H | [H | [H | [H | [H | []]]]]]; injection H as <- _;
    simpl; tauto.
Qed.

Lemma marks_enter : marks !! "enter" = None.
Proof. vm_compute. reflexivity. Qed.

Lemma modifier_keys_shape (slate : Op -> State -> State) (data : KeyData)
    (st : State) (p : bool) (r : option Applied) :
  (if isMod data then
     if String.eqb (data_key data) "y" then
       Return true (Some (apply dontSave (chain slate (chain slate (transform st) redo) focus)))
     else if String.eqb (data_key data) "z" then
       Return true
         (Some (apply dontSave
                  (chain slate (chain slate (transform st)
                                  (if isShift data then redo else undo)) focus)))
     else
       match marks !! data_key data with
       | Some mark =>
           Return true (Some (apply defaults (chain slate (transform st) (toggleMark mark))))
       | None => Return false None
       end
   else Return false None) = Return p r ->
  (p = true <-> r <> None) /\
  (r <> None ->
   isMod data = true /\ In (data_key data) ["y"; "z"; "b"; "i"; "u"; "s"; "`"]).
Proof.
  destruct (isMod data).
  - destruct (String.eqb_spec (data_key data) "y") as [Ey | _].
    + intros H. injection H as <- <-. rewrite Ey. simpl. intuition congruence.
    + destruct (String.eqb_spec (data_key data) "z") as [Ez | _].
      * intros H. injection H as <- <-. rewrite Ez. simpl. intuition congruence.
      * destruct (marks !! data_key data) as [m | ] eqn:Hm.
        -- intros H. injection H as <- <-. apply marks_keys in Hm.
           split; [intuition congruence | ]. intros _. split; [reflexivity | ].
           now do 2 right.
        -- intros H. injection H as <- <-. intuition congruence.
  - intros H. injection H as <- <-. intuition congruence.
Qed.

(** X10. Without the modifier, [handleKeyDown] leaves every key but
    Enter to the other handlers, whatever the state: it returns nothing,
    prevents nothing and does not throw, no table being consulted and no
    operation of the library called.  A state is returned only for Enter
    or with the modifier held; and whenever the handler returns, the
    default action of the event has been prevented exactly when a state is
    returned. *)
Theorem handleKeyDown_keys (slate : Op -> State -> State) (e : KeyEvent)
    (data : KeyData) (st : State) :
  (isMod data = false -> data_key data <> "enter" ->
   handleKeyDown slate e data st = Return false None) /\
  (forall (p : bool) (r : option Applied),
     handleKeyDown slate e data st = Return p r ->
     (p = true <-> r <> None) /\
     (r <> None -> data_key data = "enter" \/ isMod data = true)).
Proof.
  split.
  - intros Hmod Hne. unfold handleKeyDown. rewrite Hmod.
    now destruct (String.eqb_spec (data_key data) "enter").
  - intros p r. unfold handleKeyDown.
    destruct (String.eqb_spec (data_key data) "enter") as [Ee | Hne].
    + destruct (focusBlock st) as [fb | ]; [ | discriminate].
      destruct (isVoid fb && _ && _).
      * intros H. injection H as <- <-. split; [intuition congruence | now left].
      * intros H. apply modifier_keys_shape in H as [H1 H2].
        split; [exact H1 | ]. now left.
    + intros H. apply modifier_keys_shape in H as [H1 H2].
      split; [exact H1 | ]. intros Hr. right. exact (proj1 (H2 Hr)).
Qed.

Lemma handleKeyDown_keys_witness :
  handleKeyDown inertSlate noShift
    {| data_key := "b"; isMod := false; isShift := false |} inEmptyQuote
  = Return false None.
Proof.
  apply (proj1 (handleKeyDown_keys inertSlate noShift
                  {| data_key := "b"; isMod := false; isShift := false |}
                  inEmptyQuote)).
  - reflexivity.
  - discriminate.
Defined.

(** X11. Enter is left alone by [handleKeyDown], with or without the
    modifier, as soon as the focus block is not void, or is not a child of
    the document, or differs from the anchor block: no state is returned
    and the default is not prevented. *)
Theorem enter_left_alone (slate : Op -> State -> State) (e : KeyEvent)
    (data : KeyData) (st : State) (fb : Node) :
  data_key data = "enter" ->
  focusBlock st = Some fb ->
  isVoid fb = false \/
  indexOf (doc_nodes (document st)) (Some fb) = (-1)%Z \/
  anchorBlock st <> focusBlock st ->
  handleKeyDown slate e data st = Return false None.
Proof.
  intros Hkey Hfb Hcond. unfold handleKeyDown. rewrite Hkey. simpl String.eqb.
  cbv iota. rewrite Hfb. rewrite marks_enter.
  assert (Hc : isVoid fb
               && (indexOf (doc_nodes (document st)) (Some fb) >? -1)%Z
               && bool_decide (anchorBlock st = Some fb) = false).
  { destruct Hcond as [-> | [-> | Hne]].
    - reflexivity.
    - simpl. now rewrite andb_false_r.
    - rewrite Hfb in Hne. rewrite bool_decide_eq_false_2 by exact Hne.
      apply andb_false_r. }
  rewrite Hc. now destruct (isMod data).
Qed.

Lemma enter_left_alone_witness :
  focusBlock nestedVoid = Some shortcodeBlock /\
  isVoid shortcodeBlock = true /\
  handleKeyDown inertSlate noShift enterKey nestedVoid = Return false None.
Proof.
  split; [vm_compute; reflexivity | ]. split; [reflexivity | ].
  apply (enter_left_alone inertSlate noShift enterKey nestedVoid shortcodeBlock).
  - reflexivity.
  - vm_compute. reflexivity.
  - right. left. vm_compute. reflexivity.
Defined.

(** ** The soft-break plugin with any options *)

Lemma includes_In (l : list string) (x : string) :
  includes l x = true <-> In x l.
Proof.
  unfold includes. rewrite existsb_exists. split.
  - intros (y & Hy & E). apply String.eqb_eq in E as ->. exact Hy.
  - intros H. exists x. split; [exact H | apply String.eqb_refl].
Qed.

Lemma SoftBreak_filtered (slate : Op -> State -> State)
    (options : SoftBreakOptions) (e : KeyEvent) (data : KeyData)
    (st : State) (b : Node) :
  startBlock st = Some b ->
  filteredOut (sb_onlyIn options) (sb_ignoreIn options) (type b) = true ->
  SoftBreak slate options e data st = Return false None.
Proof.
  intros Hb Hf. unfold SoftBreak.
  destruct (negb (String.eqb (data_key data) "enter")); [reflexivity | ].
  destruct (sb_shift options && negb (shiftKey e)); [reflexivity | ].
  rewrite Hb. unfold filteredOut in Hf.
  destruct (match sb_onlyIn options with
            | Some onlyIn => negb (includes onlyIn (type b))
            | None => false
            end); [reflexivity | ].
  simpl in Hf. now rewrite Hf.
Qed.

(** X13. The soft-break plugin, whatever its options, leaves a key alone
    without ever throwing when the key is not Enter and when the [shift]
    option is set but shift is not held, whatever the state; and, in a
    block, when an [onlyIn] list is given that lacks the block's type or
    an [ignoreIn] list is given that has it, even if the block's children
    are not what the plugin expects.  A type listed in both lists is
    ignored. *)
Theorem SoftBreak_stays_out (slate : Op -> State -> State)
    (options : SoftBreakOptions) (e : KeyEvent) (data : KeyData) (st : State) :
  (data_key data <> "enter" ->
   SoftBreak slate options e data st = Return false None) /\
  (sb_shift options = true -> shiftKey e = false ->
   SoftBreak slate options e data st = Return false None) /\
  (forall b onlyIn, startBlock st = Some b ->
     sb_onlyIn options = Some onlyIn -> ~ In (type b) onlyIn ->
     SoftBreak slate options e data st = Return false None) /\
  (forall b ignoreIn, startBlock st = Some b ->
     sb_ignoreIn options = Some ignoreIn -> In (type b) ignoreIn ->
     SoftBreak slate options e data st = Return false None).
Proof.
  repeat split.
  - intros Hne. unfold SoftBreak.
    destruct (String.eqb_spec (data_key data) "enter"); [contradiction | reflexivity].
  - intros Hs He. unfold SoftBreak. rewrite Hs, He.
    now destruct (negb (String.eqb (data_key data) "enter")).
  - intros b onlyIn Hb Ho Hin. apply (SoftBreak_filtered _ _ _ _ _ b Hb).
    unfold filteredOut. rewrite Ho.
    destruct (includes onlyIn (type b)) eqn:E; [ | reflexivity].
    apply includes_In in E. contradiction.
  - intros b ignoreIn Hb Hi Hin. apply (SoftBreak_filtered _ _ _ _ _ b Hb).
    unfold filteredOut. rewrite Hi.
    apply includes_In in Hin. rewrite Hin. apply orb_true_r.
Qed.

Lemma SoftBreak_stays_out_witness :
  SoftBreak inertSlate neverClosing noShift enterKey unselected = Return false None /\
  SoftBreak inertSlate quoteOnly noShift enterKey inEmptyQuote = Return false None.
Proof.
  split.
  - apply (SoftBreak_stays_out inertSlate neverClosing noShift enterKey unselected);
      reflexivity.
  - apply (proj2 (proj2 (proj2
             (SoftBreak_stays_out inertSlate quoteOnly noShift enterKey inEmptyQuote)))
           emptyQuote ["quote"]).
    + vm_compute. reflexivity.
    + reflexivity.
    + left. reflexivity.
Defined.

(** X14. Without a [closeAfter] option, or with [closeAfter] 0, the
    plugin never closes a block: whenever it returns a state, that state
    comes from inserting one newline character, whatever the text ends
    with. *)
Theorem SoftBreak_without_closeAfter (slate : Op -> State -> State)
    (options : SoftBreakOptions) (e : KeyEvent) (data : KeyData)
    (st : State) (p : bool) (a : Applied) :
  sb_closeAfter options = None \/ sb_closeAfter options = Some 0 ->
  SoftBreak slate options e data st = Return p (Some a) ->
  p = false /\
  a = apply defaults (chain slate (transform st) (insertText (String newline ""))) /\
  applied a = [insertText (String newline "")].
Proof.
  intros Hc. unfold SoftBreak.
  destruct (negb (String.eqb (data_key data) "enter")); [discriminate | ].
  destruct (sb_shift options && negb (shiftKey e)); [discriminate | ].
  destruct (startBlock st) as [b | ]; [ | discriminate].
  destruct (match sb_onlyIn options with
            | Some onlyIn => negb (includes onlyIn (type b))
            | None => false
            end); [discriminate | ].
  destruct (match sb_ignoreIn options with
            | Some ignoreIn => includes ignoreIn (type b)
            | None => false
            end); [discriminate | ].
  destruct (last (nodes b)) as [[ | | k cs] | ]; try discriminate.
  destruct Hc as [-> | ->]; intros H; injection H as <- <-; repeat split.
Qed.

Lemma SoftBreak_without_closeAfter_witness :
  exists a : Applied,
    SoftBreak inertSlate neverClosing withShift enterKey inCodeBlock
      = Return false (Some a) /\
    applied a = [insertText (String newline "")].
Proof.
  destruct (SoftBreak inertSlate neverClosing withShift enterKey inCodeBlock)
    as [ | p [a | ]] eqn:H; try (vm_compute in H; discriminate).
  destruct (SoftBreak_without_closeAfter inertSlate neverClosing withShift enterKey
              inCodeBlock p a (or_introl eq_refl) H) as (-> & _ & Hops).
  exists a. split; [reflexivity | exact Hops].
Defined.

Lemma forallb_takeLast {A : Type} (f : A -> bool) (n : nat) (l : list A) :
  forallb f l = true -> forallb f (takeLast n l) = true.
Proof.
  unfold takeLast. rewrite !forallb_forall. intros H x Hx. apply H.
  apply list_elem_of_In. apply list_elem_of_In in Hx.
  exact (subseteq_drop _ _ _ Hx).
Qed.

(** X15. With [closeAfter] n > 0, a last text node made of newlines only
    takes the closing branch even when it holds fewer than n characters,
    none included: whenever the plugin returns a state, that state comes
    from deleteBackward(n), the unwraps and insertBlock, never from
    inserting a newline.  In particular Enter in an empty block that is
    not filtered out never inserts a newline. *)
Theorem SoftBreak_short_text_closes (slate : Op -> State -> State)
    (options : SoftBreakOptions) (e : KeyEvent) (data : KeyData)
    (st : State) (b : Node) (k : Key) (characters : list Character) (n : nat)
    (p : bool) (a : Applied) :
  startBlock st = Some b ->
  last (nodes b) = Some (Text k characters) ->
  sb_closeAfter options = Some (S n) ->
  forallb isNewline characters = true ->
  SoftBreak slate options e data st = Return p (Some a) ->
  p = false /\
  applied a =
    deleteBackward (S n)
      :: List.map unwrapBlock (default [] (sb_unwrapBlocks options))
      ++ [insertBlock (default "paragraph" (sb_defaultBlock options))] /\
  forall s : string, ~ In (insertText s) (applied a).
Proof.
  intros Hb Hlast Hclose Hall. unfold SoftBreak.
  destruct (negb (String.eqb (data_key data) "enter")); [discriminate | ].
  destruct (sb_shift options && negb (shiftKey e)); [discriminate | ].
  rewrite Hb.
  destruct (match sb_onlyIn options with
            | Some onlyIn => negb (includes onlyIn (type b))
            | None => false
            end); [discriminate | ].
  destruct (match sb_ignoreIn options with
            | Some ignoreIn => includes ignoreIn (type b)
            | None => false
            end); [discriminate | ].
  rewrite Hlast, Hclose. simpl default.
  rewrite (forallb_takeLast isNewline (S n) characters Hall).
  intros H. injection H as <- <-. split; [reflexivity | ].
  assert (Hops :
    applied (apply defaults
               (chain slate
                  match sb_unwrapBlocks options with
                  | Some unwrapBlocks =>
                      fold_left
                        (fun acc blockType => chain slate acc (unwrapBlock blockType))
                        unwrapBlocks
                        (chain slate (transform st) (deleteBackward (S n)))
                  | None => chain slate (transform st) (deleteBackward (S n))
                  end
                  (insertBlock (default "paragraph" (sb_defaultBlock options)))))
    = deleteBackward (S n)
        :: List.map unwrapBlock (default [] (sb_unwrapBlocks options))
        ++ [insertBlock (default "paragraph" (sb_defaultBlock options))]).
  { simpl. destruct (sb_unwrapBlocks options) as [l | ]; simpl.
    - now rewrite unwrap_operations.
    - reflexivity. }
  split; [exact Hops | ]. rewrite Hops. intros s [E | Hin]; [discriminate | ].
  apply in_app_iff in Hin as [Hin | [E | []]]; [ | discriminate].
  apply in_map_iff in Hin as (x & E & _). discriminate.
Qed.

Lemma SoftBreak_short_text_closes_witness :
  exists a : Applied,
    SoftBreak inertSlate softBreakOptions noShift enterKey inEmptyCode
      = Return false (Some a) /\
    applied a = [deleteBackward 1; insertBlock "paragraph"].
Proof.
  destruct (SoftBreak inertSlate softBreakOptions noShift enterKey inEmptyCode)
    as [ | p [a | ]] eqn:H; try (vm_compute in H; discriminate).
  destruct (SoftBreak_short_text_closes inertSlate softBreakOptions noShift enterKey
              inEmptyCode emptyCode 0 [] 0 p a) as (-> & Hops & _).
  - vm_compute. reflexivity.
  - reflexivity.
  - reflexivity.
  - reflexivity.
  - exact H.
  - exists a. split; [reflexivity | exact Hops].
Defined.

(** ** The backspace plugin with any options *)

(** X17. The backspace plugin, whatever its options, returns a state in
    one situation only: the key is Backspace, the start block passes the
    two filters and its first text node has no characters.  The state
    then comes from insertBlock of the configured default block type, or
    'paragraph', followed by focus, applied with the default options, and
    the default action of the event is not prevented. *)
Theorem BackspaceCloseBlock_handles (slate : Op -> State -> State)
    (options : BackspaceCloseBlockOptions) (e : KeyEvent) (data : KeyData)
    (st : State) (p : bool) (a : Applied) :
  BackspaceCloseBlock slate options e data st = Return p (Some a) ->
  p = false /\
  data_key data = "backspace" /\
  (exists b k, startBlock st = Some b /\
               filteredOut (bs_onlyIn options) (bs_ignoreIn options) (type b) = false /\
               getFirstText b = Some (Text k [])) /\
  applied a = [insertBlock (default "paragraph" (bs_defaultBlock options)); focus] /\
  applyOptions a = defaults /\
  next a = perform slate focus
             (slate (insertBlock (default "paragraph" (bs_defaultBlock options))) st).
Proof.
  unfold BackspaceCloseBlock, filteredOut.
  destruct (String.eqb_spec (data_key data) "backspace") as [Ek | ]; simpl negb;
    cbv iota; [ | discriminate].
  destruct (startBlock st) as [b | ] eqn:Hb; [ | discriminate].
  destruct (match bs_onlyIn options with
            | Some onlyIn => negb (includes onlyIn (type b))
            | None => false
            end) eqn:Ho; [discriminate | ].
  destruct (match bs_ignoreIn options with
            | Some ignoreIn => includes ignoreIn (type b)
            | None => false
            end) eqn:Hi; [discriminate | ].
  destruct (getFirstText b) as [[ | | k [|c cs]] | ] eqn:Hf; try discriminate.
  intros H. injection H as <- <-.
  split; [reflexivity | ]. split; [exact Ek | ].
  split; [exists b, k; now rewrite Ho, Hi | ]. repeat split.
Qed.

Lemma BackspaceCloseBlock_handles_witness :
  exists a : Applied,
    BackspaceCloseBlock inertSlate headingsToQuote noShift backspaceKey inLinkHeading
      = Return false (Some a) /\
    applied a = [insertBlock "quote"; focus].
Proof.
  destruct (BackspaceCloseBlock inertSlate headingsToQuote noShift backspaceKey
              inLinkHeading) as [ | p [a | ]] eqn:H;
    try (vm_compute in H; discriminate).
  destruct (BackspaceCloseBlock_handles inertSlate headingsToQuote noShift
              backspaceKey inLinkHeading p a H) as (-> & _ & _ & Hops & _).
  exists a. split; [reflexivity | exact Hops].
Defined.

(** X18. Only the first text node of the block is looked at.  A block
    that begins with an empty text node is closed by Backspace whatever
    follows that node: this is the shape of a block that starts with a
    link or another inline, whose text is then not empty. *)
Theorem BackspaceCloseBlock_first_text_only (slate : Op -> State -> State)
    (options : BackspaceCloseBlockOptions) (e : KeyEvent) (data : KeyData)
    (st : State) (kb k : Key) (ty : string) (v : bool)
    (d : gmap string string) (rest : list Node) :
  data_key data = "backspace" ->
  startBlock st = Some (Block kb ty v d (Text k [] :: rest)) ->
  filteredOut (bs_onlyIn options) (bs_ignoreIn options) ty = false ->
  nodeText (Block kb ty v d (Text k [] :: rest)) = List.flat_map nodeText rest /\
  exists a : Applied,
    BackspaceCloseBlock slate options e data st = Return false (Some a) /\
    applied a = [insertBlock (default "paragraph" (bs_defaultBlock options)); focus].
Proof.
  intros Hkey Hb Hf. split; [reflexivity | ].
  unfold BackspaceCloseBlock. rewrite Hkey, Hb. simpl negb. cbv iota.
  unfold filteredOut in Hf. apply orb_false_iff in Hf as [Ho Hi].
  simpl type. rewrite Ho, Hi. simpl. eexists. split; reflexivity.
Qed.

Lemma BackspaceCloseBlock_first_text_only_witness :
  nodeText linkHeading = plain "x" /\
  exists a : Applied,
    BackspaceCloseBlock inertSlate backspaceOptions noShift backspaceKey inLinkHeading
      = Return false (Some a) /\
    applied a = [insertBlock "paragraph"; focus].
Proof.
  split; [reflexivity | ].
  apply (BackspaceCloseBlock_first_text_only inertSlate backspaceOptions noShift
           backspaceKey inLinkHeading 4 0 "heading-one" false ∅
           [Inline 2 "link" false ∅ [Text 1 (plain "x")]; Text 3 []]).
  - reflexivity.
  - vm_compute. reflexivity.
  - vm_compute. reflexivity.
Defined.

(** ** The two plugins together *)

Lemma ignoredTypes_both (t : string) :
  In t ignoredTypes ->
  filteredOut (sb_onlyIn softBreakOptions) (sb_ignoreIn softBreakOptions) t = true /\
  filteredOut (bs_onlyIn backspaceOptions) (bs_ignoreIn backspaceOptions) t = true.
Proof.
  intros H. unfold filteredOut, softBreakOptions, backspaceOptions.
  cbn [sb_onlyIn sb_ignoreIn bs_onlyIn bs_ignoreIn orb].
  unfold ignoredTypes in H.
  split; apply includes_In; simpl in H |- *; tauto.
Qed.

Lemma BackspaceCloseBlock_filtered (slate : Op -> State -> State)
    (options : BackspaceCloseBlockOptions) (e : KeyEvent) (data : KeyData)
    (st : State) (b : Node) :
  startBlock st = Some b ->
  filteredOut (bs_onlyIn options) (bs_ignoreIn options) (type b) = true ->
  BackspaceCloseBlock slate options e data st = Return false None.
Proof.
  intros Hb Hf. unfold BackspaceCloseBlock.
  destruct (negb (String.eqb (data_key data) "backspace")); [reflexivity | ].
  rewrite Hb. unfold filteredOut in Hf.
  destruct (match bs_onlyIn options with
            | Some onlyIn => negb (includes onlyIn (type b))
            | None => false
            end); [reflexivity | ].
  simpl in Hf. now rewrite Hf.
Qed.

(** X19. The two configured plugins ignore the same seven block types,
    listed in different orders: in a paragraph, a list item, either kind
    of list, a table, a table row or a table cell, neither plugin returns
    a state or throws, whatever the key and the content of the block. *)
Theorem plugins_ignore_same_types (slate : Op -> State -> State)
    (e : KeyEvent) (data : KeyData) (st : State) (b : Node) :
  (forall t, includes ["paragraph"; "list-item"; "numbered-list"; "bulleted-list";
                       "table"; "table-row"; "table-cell"] t
             = includes ["paragraph"; "list-item"; "bulleted-list"; "numbered-list";
                         "table"; "table-row"; "table-cell"] t) /\
  (startBlock st = Some b -> In (type b) ignoredTypes ->
   SoftBreak slate softBreakOptions e data st = Return false None /\
   BackspaceCloseBlock slate backspaceOptions e data st = Return false None).
Proof.
  split.
  - intros t. apply eq_true_iff_eq. rewrite !includes_In. simpl. tauto.
  - intros Hb Hin. destruct (ignoredTypes_both _ Hin) as [H1 H2]. split.
    + now apply (SoftBreak_filtered _ _ _ _ _ b).
    + now apply (BackspaceCloseBlock_filtered _ _ _ _ _ b).
Qed.

Lemma plugins_ignore_same_types_witness :
  SoftBreak inertSlate softBreakOptions noShift enterKey inHelloParagraph
    = Return false None /\
  BackspaceCloseBlock inertSlate backspaceOptions noShift backspaceKey inHelloParagraph
    = Return false None.
Proof.
  destruct (plugins_ignore_same_types inertSlate noShift enterKey inHelloParagraph
              helloParagraph) as [_ H1].
  destruct (plugins_ignore_same_types inertSlate noShift backspaceKey inHelloParagraph
              helloParagraph) as [_ H2].
  split.
  - apply H1; [vm_compute; reflexivity | left; reflexivity].
  - apply H2; [vm_compute; reflexivity | left; reflexivity].
Defined.

(** ** The block buttons *)

Lemma focusSelection_focused (sel : Selection) :
  isFocused sel = true -> focusSelection sel = sel.
Proof. destruct sel as [ak ao fk fo bw f]. simpl. now intros ->. Qed.

Lemma perform_focus_focused (slate : Op -> State -> State) (st : State) :
  isFocused (selection st) = true -> perform slate focus st = st.
Proof.
  intros H. destruct st as [d sel g]. simpl in *.
  now rewrite focusSelection_focused.
Qed.

Lemma listTypes_includes (blockType : string) :
  includes ["bulleted-list"; "numbered-list"] blockType = true <->
  In blockType listTypes.
Proof. apply includes_In. Qed.

Ltac button_op :=
  lazymatch goal with
  | |- buttonOp _ (wrapBlock _) => split; [reflexivity | assumption]
  | |- buttonOp _ focus => exact I
  | |- buttonOp _ _ =>
      unfold buttonOp;
      repeat match goal with
             | |- context [if ?b then _ else _] => destruct b
             end;
      simpl; auto
  end.

(** X20. Whatever the button and the selection, a click on a block button
    asks for nothing but setBlock, wrapBlock, unwrapBlock and focus: the
    type set is the button's, 'paragraph' or 'list-item'; only a list
    button wraps, and in its own type; only the two list types are ever
    unwrapped.  The last operation is focus, so that the state handed to
    the editor is focused, and the change is applied with the default
    options. *)
Theorem handleBlockClick_operations (slate : Op -> State -> State)
    (blocks : State -> list Node)
    (getClosest : Document -> Key -> (Node -> bool) -> option Node)
    (blockType : string) (st : State) :
  let a := handleBlockClick slate blocks getClosest blockType st in
  Forall (buttonOp blockType) (applied a) /\
  last (applied a) = Some focus /\
  isFocused (selection (next a)) = true /\
  applyOptions a = defaults.
Proof.
  unfold handleBlockClick.
  destruct (includes ["bulleted-list"; "numbered-list"] blockType) eqn:Hl;
    simpl negb; cbv iota.
  - apply listTypes_includes in Hl.
    destruct (hasBlock blocks st "list-item"), (isType blocks getClosest st blockType);
      simpl;
      (split; [repeat (constructor; [button_op | ]); constructor | repeat split]).
  - destruct (hasBlock blocks st "list-item"); simpl;
      (split; [repeat (constructor; [button_op | ]); constructor | repeat split]).
Qed.

(** X21. A click on a list button either wraps the selection in that
    list or takes it out of it, never both.  When some selected block is
    a list item and some selected block lies in a list of the button's
    type, the blocks are set to 'paragraph' and both list types are
    unwrapped.  Otherwise the button's list is wrapped around the
    selection: around new list items when the selection held none, and
    after unwrapping the other list type when it held one. *)
Theorem list_button_wraps_or_unwraps (slate : Op -> State -> State)
    (blocks : State -> list Node)
    (getClosest : Document -> Key -> (Node -> bool) -> option Node)
    (blockType : string) (st : State) :
  In blockType listTypes ->
  let a := handleBlockClick slate blocks getClosest blockType st in
  let isList := hasBlock blocks st "list-item" in
  let inList := isList && isType blocks getClosest st blockType in
  (In (wrapBlock blockType) (applied a) <-> inList = false) /\
  (In (unwrapBlock blockType) (applied a) <-> inList = true) /\
  (In (setBlock DEFAULT_NODE) (applied a) <-> inList = true) /\
  (In (setBlock "list-item") (applied a) <-> isList = false) /\
  (isList = true ->
   forall other, In other listTypes -> other <> blockType ->
   In (unwrapBlock other) (applied a)).
Proof.
  intros Hin. unfold handleBlockClick.
  assert (Hl : includes ["bulleted-list"; "numbered-list"] blockType = true)
    by now apply listTypes_includes.
  rewrite Hl. simpl negb. cbv iota.
  destruct Hin as [<- | [<- | []]];
    destruct (hasBlock blocks st "list-item"),
             (isType blocks getClosest st _);
    simpl; unfold DEFAULT_NODE;
    repeat split; try (intros; discriminate);
    try (intros [E | [E | [E | [E | []]]]]; discriminate);
    try (intros [E | [E | [E | []]]]; discriminate);
    try (intros _; tauto);
    try (intros _ other [<- | [<- | []]] Hne; tauto).
Qed.

Lemma list_button_wraps_or_unwraps_witness :
  In (unwrapBlock "bulleted-list")
     (applied (handleBlockClick inertSlate cursorBlocks closestInList
                 "bulleted-list" inListItem)) /\
  In (unwrapBlock "bulleted-list")
     (applied (handleBlockClick inertSlate cursorBlocks closestInList
                 "numbered-list" inListItem)).
Proof.
  pose proof (list_button_wraps_or_unwraps inertSlate cursorBlocks closestInList
                "bulleted-list" inListItem (or_introl eq_refl)) as H1.
  pose proof (list_button_wraps_or_unwraps inertSlate cursorBlocks closestInList
                "numbered-list" inListItem (or_intror (or_introl eq_refl))) as H2.
  cbv zeta in H1, H2.
  destruct H1 as (_ & Hu & _). destruct H2 as (_ & _ & _ & _ & Ho).
  split.
  - apply Hu. vm_compute. reflexivity.
  - apply Ho; [vm_compute; reflexivity | left; reflexivity | discriminate].
Defined.

(** X22. A click on any other block button never wraps.  It first sets
    the type of the selected blocks: to 'paragraph' when some selected
    block already has the button's type, to the button's type otherwise.
    The two list types are then unwrapped exactly when some selected
    block is a list item. *)
Theorem block_button_sets_type (slate : Op -> State -> State)
    (blocks : State -> list Node)
    (getClosest : Document -> Key -> (Node -> bool) -> option Node)
    (blockType : string) (st : State) :
  ~ In blockType listTypes ->
  let a := handleBlockClick slate blocks getClosest blockType st in
  (forall t, ~ In (wrapBlock t) (applied a)) /\
  hd_error (applied a) =
    Some (setBlock (if hasBlock blocks st blockType then DEFAULT_NODE else blockType)) /\
  (forall t, In t listTypes ->
             (In (unwrapBlock t) (applied a) <-> hasBlock blocks st "list-item" = true)) /\
  length (applied a) = if hasBlock blocks st "list-item" then 4 else 2.
Proof.
  intros Hin. unfold handleBlockClick.
  assert (Hl : includes ["bulleted-list"; "numbered-list"] blockType = false).
  { destruct (includes _ blockType) eqn:E; [ | reflexivity].
    now apply listTypes_includes in E. }
  rewrite Hl. simpl negb. cbv iota.
  destruct (hasBlock blocks st "list-item"); simpl.
  - repeat split.
    + intros t [E | [E | [E | [E | []]]]]; discriminate.
    + destruct H as [<- | [<- | []]]; tauto.
  - repeat split.
    + intros t [E | [E | []]]; discriminate.
    + intros [E | [E | []]]; discriminate.
    + discriminate.
Qed.

Lemma block_button_sets_type_witness :
  hd_error (applied (handleBlockClick inertSlate cursorBlocks closestInList
                       "quote" inEmptyQuote)) = Some (setBlock "paragraph") /\
  hd_error (applied (handleBlockClick inertSlate cursorBlocks closestInList
                       "quote" inListItem)) = Some (setBlock "quote").
Proof.
  assert (Hq : ~ In "quote" listTypes) by (intros [E | [E | []]]; discriminate).
  split.
  - exact (proj1 (proj2 (block_button_sets_type inertSlate cursorBlocks
                           closestInList "quote" inEmptyQuote Hq))).
  - exact (proj1 (proj2 (block_button_sets_type inertSlate cursorBlocks
                           closestInList "quote" inListItem Hq))).
Defined.

(** ** Mark buttons and mark shortcuts *)

(** X23. In a focused editor a click on a mark button and the shortcut of
    that mark give the same state, applied with the same options: the
    button only adds a focus, which changes nothing there, in front of
    the toggle. *)
Theorem mark_button_matches_shortcut (slate : Op -> State -> State)
    (e : KeyEvent) (k mark : string) (shift : bool) (st : State) :
  marks !! k = Some mark ->
  isFocused (selection st) = true ->
  exists a : Applied,
    handleKeyDown slate e {| data_key := k; isMod := true; isShift := shift |} st
      = Return true (Some a) /\
    next (handleMarkClick slate mark st) = next a /\
    applyOptions (handleMarkClick slate mark st) = applyOptions a /\
    applied (handleMarkClick slate mark st) = focus :: applied a.
Proof.
  intros Hm Hf. eexists. split.
  - apply mod_key_toggles; [ | | | exact Hm];
      apply marks_keys in Hm; simpl in Hm;
      destruct Hm as [<- | [<- | [<- | [<- | [<- | []]]]]]; reflexivity.
  - unfold handleMarkClick, apply, chain, transform. simpl.
    change {| document := document st;
              selection := focusSelection (selection st);
              keygen := keygen st |} with (perform slate focus st).
    rewrite (perform_focus_focused slate st Hf). repeat split.
Qed.

Lemma mark_button_matches_shortcut_witness :
  exists a : Applied,
    handleKeyDown inertSlate noShift
      {| data_key := "b"; isMod := true; isShift := false |} inCodeBlock
      = Return true (Some a) /\
    next (handleMarkClick inertSlate "bold" inCodeBlock) = next a.
Proof.
  destruct (mark_button_matches_shortcut inertSlate noShift "b" "bold" false
              inCodeBlock) as (a & Ha & Hn & _).
  - vm_compute. reflexivity.
  - reflexivity.
  - exists a. split; [exact Ha | exact Hn].
Defined.
